(** * Turn-taking arbiter (server.py) and its scripted participants (client.py)

    The server keeps one process-wide integer [turn] guarded by one
    [threading.Lock]; two handler threads, one per accepted connection, poll it
    and let the participant whose identity equals [turn] transmit one value.
    The development embeds the three thread bodies of the repository
    ([server], [handle_client], [client]) as step functions over explicit
    program points, interleaves them, and proves the ordering, failure and
    frame properties of the specification as invariants of the reachable
    states. *)

From Stdlib Require Import ZArith String Ascii List Bool Lia DecimalString.
Import ListNotations.
Local Open Scope string_scope.
Local Open Scope Z_scope.

(** ** The Python primitives both programs rely on *)
Module Py.

(** Exceptions that reach the two programs.  [ConnectionResetError] and
    [BrokenPipeError] are the two classes named by the handler's [except]
    clause; [UnicodeDecodeError] is what [bytes.decode] raises,
    [ValueError] what a failed tuple unpacking raises, and [OSError] stands
    for every other socket failure. *)
Inductive exn :=
| ConnectionResetError
| BrokenPipeError
| OSError
| UnicodeDecodeError
| ValueError.

(** What a blocking socket call hands back to the thread that made it:
    the bytes it returned, or the exception it raised.  A call that returns
    nothing useful ([sendall], [bind], [connect]) succeeds with any
    [Returns]. *)
Inductive io :=
| Returns (b : string)
| Raises (e : exn).

(** [str(n)] for a Python int. *)
Definition str (z : Z) : string := NilZero.string_of_int (Z.to_int z).

(** [s.split(sep)] for a one-character separator: every occurrence cuts,
    so the result has one more field than there are separators. *)
Fixpoint split (sep : ascii) (s : string) : list string :=
  match s with
  | EmptyString => [EmptyString]
  | String c r =>
      if Ascii.eqb c sep then EmptyString :: split sep r
      else match split sep r with
           | [] => [String c EmptyString]
           | field :: fields => String c field :: fields
           end
  end.

Definition between (lo hi : N) (c : ascii) : bool :=
  let n := N_of_ascii c in ((lo <=? n) && (n <=? hi))%N.

Definition continuation : ascii -> bool := between 128 191.

Definition lead3 (a b : ascii) : bool :=
  (between 224 224 a && between 160 191 b)
  || (between 225 236 a && continuation b)
  || (between 237 237 a && between 128 159 b)
  || (between 238 239 a && continuation b).

Definition lead4 (a b : ascii) : bool :=
  (between 240 240 a && between 144 191 b)
  || (between 241 243 a && continuation b)
  || (between 244 244 a && between 128 143 b).

(** Well-formed UTF-8, as the strict decoder accepts it: no overlong form,
    no surrogate, nothing above U+10FFFF. *)
Fixpoint utf8 (s : string) : bool :=
  match s with
  | EmptyString => true
  | String a r =>
      if between 0 127 a then utf8 r
      else match r with
           | EmptyString => false
           | String b r2 =>
               if between 194 223 a then continuation b && utf8 r2
               else match r2 with
                    | EmptyString => false
                    | String c r3 =>
                        if lead3 a b then continuation c && utf8 r3
                        else match r3 with
                             | EmptyString => false
                             | String d r4 =>
                                 lead4 a b && continuation c
                                 && continuation d && utf8 r4
                             end
                    end
           end
  end.

(** [b.decode()]: [None] stands for [UnicodeDecodeError].  The text is kept
    in its UTF-8 form: the programs only test it for emptiness, compare it
    with ASCII literals and cut it at the ASCII colon, and all three give the
    same answer on the encoded form. *)
Definition decode (b : string) : option string :=
  if utf8 b then Some b else None.

Definition colon : ascii := ":"%char.

(** Number of occurrences of [sep] in [s]. *)
Fixpoint occurrences (sep : ascii) (s : string) : nat :=
  match s with
  | EmptyString => 0
  | String c r =>
      if Ascii.eqb c sep then S (occurrences sep r) else occurrences sep r
  end.

End Py.

(** ** server.py *)
Module Server.
Import Py.

Definition host : string := "0.0.0.0".
Definition port : Z := 5001.

(** What the server does that the outside can see, newest first. *)
Inductive event :=
| Printed (line : string)
| Sent (client_id : Z) (signal : string)
| Accepted (client_id : Z) (client_name number : string).

(** The module-level names shared by the handler threads: [turn], the state
    of [lock], and the history of observable events. *)
Record globals := Globals { turn : Z; lock : bool; out : list event }.

Definition emit (e : event) (g : globals) : globals :=
  Globals (turn g) (lock g) (e :: out g).
Definition set_lock (b : bool) (g : globals) : globals :=
  Globals (turn g) b (out g).
Definition set_turn (t : Z) (g : globals) : globals :=
  Globals t (lock g) (out g).

(** How a handler thread ended: the [return] of line 21, the [break] of
    line 34, or an exception no clause caught. *)
Inductive exit :=
| Returned
| Disconnected
| Died (e : exn).

(** Program points of [handle_client], named after the statement about to
    run.  [AtTest], [AtSendGo], [AtRecv] and [AtSendWait] lie inside
    [with lock:]. *)
Inductive hpc :=
| AtLock
| AtTest
| AtSendGo
| AtRecv
| AtSendWait
| AtSleep
| Finished (r : exit).

(** [except (ConnectionResetError, BrokenPipeError)]. *)
Definition caught (e : exn) : bool :=
  match e with
  | ConnectionResetError | BrokenPipeError => true
  | _ => false
  end.

(** An exception raised inside [with lock:] leaves the block, which releases
    the lock; the [except] clause then either prints and breaks, or the
    exception leaves [handle_client] and ends the thread. *)
Definition unwind (client_id : Z) (addr : string) (e : exn) (g : globals)
  : hpc * globals :=
  let g := set_lock false g in
  if caught e
  then (Finished Disconnected,
        emit (Printed ("Client " ++ str client_id ++ " (" ++ addr
                       ++ ") disconnected.")) g)
  else (Finished (Died e), g).

(** Lines 20 to 26, on the text [recv(1024).decode()] produced. *)
Definition on_data (client_id : Z) (addr : string) (data : string)
                   (g : globals) : hpc * globals :=
  if String.eqb data "" then (Finished Returned, set_lock false g)
  else match split colon data with
       | [client_name; number] =>
           let g := emit (Accepted client_id client_name number) g in
           let g := emit (Printed (client_name ++ " sent: " ++ number)) g in
           let g := set_turn (if client_id =? 1 then 2 else 1) g in
           (AtSleep, set_lock false g)
       | _ => unwind client_id addr ValueError g
       end.

(** One step of the thread running [handle_client(conn, addr, client_id)]
    from program point [pc]; [r] is the outcome of the socket call when the
    statement makes one.  [None]: the thread cannot move (it waits for the
    lock, or it has ended). *)
Definition handle_client (client_id : Z) (addr : string) (r : io)
                         (pc : hpc) (g : globals) : option (hpc * globals) :=
  match pc with
  | AtLock =>
      if lock g then None else Some (AtTest, set_lock true g)
  | AtTest =>
      Some (if turn g =? client_id then AtSendGo else AtSendWait, g)
  | AtSendGo =>
      match r with
      | Returns _ => Some (AtRecv, emit (Sent client_id "GO") g)
      | Raises e => Some (unwind client_id addr e g)
      end
  | AtRecv =>
      match r with
      | Returns b =>
          match decode b with
          | Some data => Some (on_data client_id addr data g)
          | None => Some (unwind client_id addr UnicodeDecodeError g)
          end
      | Raises e => Some (unwind client_id addr e g)
      end
  | AtSendWait =>
      match r with
      | Returns _ =>
          Some (AtSleep, set_lock false (emit (Sent client_id "WAIT") g))
      | Raises e => Some (unwind client_id addr e g)
      end
  | AtSleep => Some (AtLock, g)
  | Finished _ => None
  end.

(** Program points of [server()]. *)
Inductive mpc :=
| AtBind
| AtAccept1
| AtAccept2
| Exited (e : option exn).

(** A handler thread: the address of its peer and its program point. *)
Record thread := Thread { addr : string; pc : hpc }.

Record state := State {
  globals_of : globals;
  main : mpc;
  handler1 : option thread;
  handler2 : option thread
}.

(** [turn = 1] at line 8, the lock free, no thread started. *)
Definition initial : state :=
  State (Globals 1 false []) AtBind None None.

(** The threads of the process. *)
Inductive tid := Main | Handler1 | Handler2.

Definition client_id_of (t : tid) : Z :=
  match t with Handler2 => 2 | _ => 1 end.

Definition handler (t : tid) (s : state) : option thread :=
  match t with
  | Main => None
  | Handler1 => handler1 s
  | Handler2 => handler2 s
  end.

Definition set_handler (t : tid) (h : thread) (g : globals) (s : state)
  : state :=
  match t with
  | Main => s
  | Handler1 => State g (main s) (Some h) (handler2 s)
  | Handler2 => State g (main s) (handler1 s) (Some h)
  end.

(** One step of [server()]: bind and listen, then two [accept]s, each
    followed by the start of a handler thread.  For an [accept], the bytes
    returned stand for the printed form of the peer address. *)
Definition server (r : io) (s : state) : option state :=
  let g := globals_of s in
  match main s, r with
  | Exited _, _ => None
  | _, Raises e => Some (State g (Exited (Some e)) (handler1 s) (handler2 s))
  | AtBind, Returns _ =>
      Some (State (emit (Printed ("Server listening on " ++ host ++ ":"
                                  ++ str port)) g)
                  AtAccept1 (handler1 s) (handler2 s))
  | AtAccept1, Returns addr1 =>
      Some (State (emit (Printed ("Client1 " ++ addr1 ++ " connected.")) g)
                  AtAccept2 (Some (Thread addr1 AtLock)) (handler2 s))
  | AtAccept2, Returns addr2 =>
      Some (State (emit (Printed ("Client2 " ++ addr2 ++ " connected.")) g)
                  (Exited None) (handler1 s) (Some (Thread addr2 AtLock)))
  end.

(** One step of thread [t]. *)
Definition step (t : tid) (r : io) (s : state) : option state :=
  match t with
  | Main => server r s
  | _ =>
      match handler t s with
      | None => None
      | Some h =>
          match handle_client (client_id_of t) (addr h) r (pc h)
                              (globals_of s) with
          | None => None
          | Some (pc', g') => Some (set_handler t (Thread (addr h) pc') g' s)
          end
      end
  end.

(** A schedule names, step by step, the thread that moves and what its
    socket call returns. *)
Fixpoint run (sched : list (tid * io)) (s : state) : option state :=
  match sched with
  | [] => Some s
  | (t, r) :: rest =>
      match step t r s with
      | None => None
      | Some s' => run rest s'
      end
  end.

Inductive reachable : state -> Prop :=
| reach_initial : reachable initial
| reach_step s t r s' : reachable s -> step t r s = Some s' -> reachable s'.

(** *** Observations *)

Definition turn_of (s : state) : Z := turn (globals_of s).
Definition locked (s : state) : bool := lock (globals_of s).
Definition history (s : state) : list event := out (globals_of s).

(** Identities of the accepted messages, newest first. *)
Fixpoint accepted_ids (tr : list event) : list Z :=
  match tr with
  | [] => []
  | Accepted client_id _ _ :: tr => client_id :: accepted_ids tr
  | _ :: tr => accepted_ids tr
  end.

(** Identities of the accepted messages in the order of acceptance. *)
Definition acceptance_order (s : state) : list Z :=
  rev (accepted_ids (history s)).

Definition accepted_count (s : state) : nat :=
  length (accepted_ids (history s)).

(** Signals sent to session [client_id], newest first. *)
Fixpoint signals_to (client_id : Z) (tr : list event) : list string :=
  match tr with
  | [] => []
  | Sent i signal :: tr =>
      if i =? client_id then signal :: signals_to client_id tr
      else signals_to client_id tr
  | _ :: tr => signals_to client_id tr
  end.

(** The first [n] terms of 1, 2, 1, 2, ... *)
Definition alternation (n : nat) : list Z :=
  map (fun k => if Nat.even k then 1 else 2) (seq 0 n).

(** The program points inside [with lock:]. *)
Definition inside (p : hpc) : bool :=
  match p with
  | AtTest | AtSendGo | AtRecv | AtSendWait => true
  | _ => false
  end.

Definition holds_lock (h : option thread) : bool :=
  match h with
  | Some th => inside (pc th)
  | None => false
  end.

Definition at_pc (t : tid) (p : hpc) (s : state) : Prop :=
  exists a, handler t s = Some (Thread a p).

Definition ended (t : tid) (s : state) : Prop :=
  exists a r, handler t s = Some (Thread a (Finished r)).

Definition other (t : tid) : tid :=
  match t with
  | Main => Main
  | Handler1 => Handler2
  | Handler2 => Handler1
  end.

(** After a session has ended with the lock free, the rest of the process
    goes on: the other handler, if it runs, can move, and so can
    [server()] if it has not returned. *)
Definition goes_on (t : tid) (s' : state) : Prop :=
  (forall b q, handler (other t) s' = Some (Thread b q) ->
               (forall x, q <> Finished x) ->
               exists s'', step (other t) (Returns "") s' = Some s'')
  /\ ((forall e, main s' <> Exited e) ->
      exists s'', step Main (Returns "") s' = Some s'').

(** *** The invariant of the reachable states *)

Definition started (h : option thread) : bool :=
  match h with
  | Some _ => true
  | None => false
  end.

(** Which handler threads exist at each program point of [server()]. *)
Definition spawned (s : state) : Prop :=
  match main s with
  | AtBind | AtAccept1 =>
      started (handler1 s) = false /\ started (handler2 s) = false
  | AtAccept2 =>
      started (handler1 s) = true /\ started (handler2 s) = false
  | Exited None =>
      started (handler1 s) = true /\ started (handler2 s) = true
  | Exited (Some _) =>
      started (handler1 s) = false -> started (handler2 s) = false
  end.

(** What the branch a handler stands in says about [turn]. *)
Definition branch_ok (client_id : Z) (p : hpc) (turn : Z) : Prop :=
  match p with
  | AtSendGo | AtRecv => turn = client_id
  | AtSendWait => turn <> client_id
  | _ => True
  end.

Record invariant (s : state) : Prop := Invariant {
  inv_turn : turn_of s = if Nat.even (accepted_count s) then 1 else 2;
  inv_order : accepted_ids (history s) = rev (alternation (accepted_count s));
  inv_lock : locked s = holds_lock (handler1 s) || holds_lock (handler2 s);
  inv_excl : holds_lock (handler1 s) && holds_lock (handler2 s) = false;
  inv_branch1 : forall a p, handler1 s = Some (Thread a p) ->
                branch_ok 1 p (turn_of s);
  inv_branch2 : forall a p, handler2 s = Some (Thread a p) ->
                branch_ok 2 p (turn_of s);
  inv_spawned : spawned s;
  inv_alone : started (handler2 s) = false ->
              (accepted_count s <= 1)%nat /\ signals_to 2 (history s) = [];
  inv_nobody : started (handler1 s) = false ->
               accepted_count s = 0%nat /\ signals_to 1 (history s) = []
}.

(** *** A run of the process, used to instantiate the theorems

    The server binds, accepts a first connection, and the handler of
    session 1 takes the lock, finds [turn = 1], signals and reads. *)
Definition peer_address : string := "('127.0.0.1', 50001)".

Definition until_go : list (tid * io) :=
  [(Main, Returns ""); (Main, Returns peer_address);
   (Handler1, Returns ""); (Handler1, Returns "")].

Definition until_recv : list (tid * io) :=
  until_go ++ [(Handler1, Returns "")].

Definition until_accept : list (tid * io) :=
  until_recv ++ [(Handler1, Returns "Client1:1")].

Definition state_after (sched : list (tid * io)) : state :=
  match run sched initial with
  | Some s => s
  | None => initial
  end.

Definition until_return : list (tid * io) :=
  until_recv ++ [(Handler1, Returns "")].

Definition until_reset : list (tid * io) :=
  until_recv ++ [(Handler1, Raises ConnectionResetError)].

Definition until_crash : list (tid * io) :=
  until_recv ++ [(Handler1, Returns "Client1")].

Definition at_go : state := Eval vm_compute in state_after until_go.
Definition at_return : state := Eval vm_compute in state_after until_return.
Definition at_reset : state := Eval vm_compute in state_after until_reset.
Definition at_crash : state := Eval vm_compute in state_after until_crash.
Definition at_recv : state := Eval vm_compute in state_after until_recv.
Definition at_accept : state := Eval vm_compute in state_after until_accept.

(** What one step of the handler of session [i], from [p] to [p'],
    does to the shared names. *)
Record effect (i : Z) (p : hpc) (g : globals) (p' : hpc) (g' : globals)
  : Prop := Effect {
  eff_enter : inside p = false -> inside p' = true -> lock g = false;
  eff_lock : lock g' = if Bool.eqb (inside p) (inside p') then lock g
                       else inside p';
  eff_branch : branch_ok i p' (turn g');
  eff_turn : (accepted_ids (out g') = accepted_ids (out g)
              /\ turn g' = turn g)
             \/ (p = AtRecv /\ p' = AtSleep /\ turn g = i
                 /\ turn g' = (if i =? 1 then 2 else 1)
                 /\ accepted_ids (out g') = i :: accepted_ids (out g));
  eff_signal : (signals_to i (out g') = signals_to i (out g)
                /\ p' <> AtRecv)
               \/ (p = AtSendGo /\ p' = AtRecv
                   /\ signals_to i (out g') = "GO" :: signals_to i (out g))
               \/ (p = AtSendWait /\ p' = AtSleep
                   /\ signals_to i (out g')
                      = "WAIT" :: signals_to i (out g));
  eff_frame : forall j, j <> i -> signals_to j (out g') = signals_to j (out g)
}.

(** *** Further observations *)

(** Number of GO signals put on session [i], and of messages accepted from
    it. *)
Definition go_count (i : Z) (tr : list event) : nat :=
  count_occ string_dec (signals_to i tr) "GO".

Definition accepted_from (i : Z) (tr : list event) : nat :=
  count_occ Z.eq_dec (accepted_ids tr) i.

(** The accepted messages put back together, newest first. *)
Fixpoint accepted_payloads (tr : list event) : list string :=
  match tr with
  | [] => []
  | Accepted _ client_name number :: tr =>
      (client_name ++ ":" ++ number) :: accepted_payloads tr
  | _ :: tr => accepted_payloads tr
  end.

(** The socket calls of [handle_client]. *)
Definition calls (p : hpc) : bool :=
  match p with
  | AtSendGo | AtRecv | AtSendWait => true
  | _ => false
  end.

(** What ties the number [go] of GO signals of a session to the number
    [acc] of messages accepted from it, by the program point of its
    handler: one GO more than accepted while the handler reads the reply,
    as many as accepted at every other point of a running handler. *)
Definition balance_at (p : option hpc) (go acc : nat) : Prop :=
  match p with
  | Some AtRecv => go = S acc
  | Some (Finished _) => (acc <= go <= S acc)%nat
  | _ => go = acc
  end.

Definition go_balance (t : tid) (s : state) : Prop :=
  balance_at (option_map pc (handler t s))
             (go_count (client_id_of t) (out (globals_of s)))
             (accepted_from (client_id_of t) (out (globals_of s))).

(** A second session, accepted while the first one reads. *)
Definition until_both : list (tid * io) :=
  until_recv ++ [(Main, Returns peer_address)].

Definition at_both : state := Eval vm_compute in state_after until_both.

(** The first session has returned on an empty read; the second one is
    accepted, takes the lock, finds that [turn] is not its own and is told
    to wait. *)
Definition survivor_polls : list (tid * io) :=
  [(Main, Returns peer_address); (Handler2, Returns "");
   (Handler2, Returns ""); (Handler2, Returns "")].

Definition at_survivor : state :=
  Eval vm_compute in state_after (until_return ++ survivor_polls).

End Server.

(** ** client.py *)
Module Client.
Import Py.

(** Program points of [client]: the [connect] of line 10, the [recv] of
    line 13, the [sendall] of line 17 with the message line 16 built, the
    two sleeps, and the end of the thread by an exception (the function has
    no handler). *)
Inductive cpc :=
| AtConnect
| AtRecv
| AtSend (message : string)
| AtSleepSecond
| AtSleepTenth
| Crashed (e : exn).

(** The locals of one [client] thread, with what it transmitted and printed,
    newest first. *)
Record state := State {
  client_name : string;
  current_number : Z;
  pc : cpc;
  sent : list string;
  printed : list string
}.

Definition goto (p : cpc) (s : state) : state :=
  State (client_name s) (current_number s) p (sent s) (printed s).

(** [client(client_name, start_number)] before its first statement. *)
Definition start (client_name : string) (start_number : Z) : state :=
  State client_name start_number AtConnect [] [].

(** One step of the thread; [r] is the outcome of its socket call. *)
Definition client (r : io) (s : state) : option state :=
  match pc s with
  | AtConnect =>
      match r with
      | Returns _ => Some (goto AtRecv s)
      | Raises e => Some (goto (Crashed e) s)
      end
  | AtRecv =>
      match r with
      | Returns b =>
          match decode b with
          | Some response =>
              if String.eqb response "GO"
              then Some (goto (AtSend (client_name s ++ ":"
                                       ++ str (current_number s))) s)
              else if String.eqb response "WAIT"
              then Some (goto AtSleepTenth s)
              else Some s
          | None => Some (goto (Crashed UnicodeDecodeError) s)
          end
      | Raises e => Some (goto (Crashed e) s)
      end
  | AtSend message =>
      match r with
      | Returns _ =>
          Some (State (client_name s) (current_number s + 2) AtSleepSecond
                      (message :: sent s)
                      ((client_name s ++ " sent: " ++ str (current_number s))
                       :: printed s))
      | Raises e => Some (goto (Crashed e) s)
      end
  | AtSleepSecond | AtSleepTenth => Some (goto AtRecv s)
  | Crashed _ => None
  end.

(** The thread fed with the outcomes of its successive socket calls; the
    steps that make no call consume an outcome they ignore. *)
Fixpoint run (rs : list io) (s : state) : option state :=
  match rs with
  | [] => Some s
  | r :: rest =>
      match client r s with
      | None => None
      | Some s' => run rest s'
      end
  end.

(** *** Observations *)

(** The first [k] payloads of a participant called [name] that starts
    counting at [start]. *)
Definition payloads (name : string) (start : Z) (k : nat) : list string :=
  map (fun i => name ++ ":" ++ str (start + 2 * Z.of_nat i)) (seq 0 k).

(** The lines it prints for them. *)
Definition lines (name : string) (start : Z) (k : nat) : list string :=
  map (fun i => name ++ " sent: " ++ str (start + 2 * Z.of_nat i))
      (seq 0 k).

(** Outcomes that are the signal GO. *)
Definition is_go (r : io) : bool :=
  match r with
  | Returns b => String.eqb b "GO"
  | Raises _ => false
  end.

Definition go_reads (rs : list io) : nat := length (filter is_go rs).

(** A payload built and not yet sent. *)
Definition pending (s : state) : nat :=
  match pc s with
  | AtSend _ => 1
  | _ => 0
  end.

(** The socket calls of [client]. *)
Definition calls (p : cpc) : bool :=
  match p with
  | AtConnect | AtRecv | AtSend _ => true
  | _ => false
  end.

(** What [client] keeps true at every point of a thread started as
    [client(name, start)]. *)
Record invariant (name : string) (start : Z) (s : state) : Prop := Invariant {
  inv_name : client_name s = name;
  inv_number : current_number s = start + 2 * Z.of_nat (length (sent s));
  inv_sent : rev (sent s) = payloads name start (length (sent s));
  inv_printed : rev (printed s) = lines name start (length (sent s));
  inv_send : forall m, pc s = AtSend m ->
                       m = name ++ ":" ++ str (current_number s)
}.

End Client.

(** ** The two programs run together

    The server process and the two [client] threads started by
    [client.py], joined by two connections.  Each [sendall] is delivered
    whole and in order and each [recv] returns one of them, the reading the
    protocol takes of its size-bounded reads; the sockets themselves do not
    fail.  A [recv] on an empty connection waits while the other end is alive
    and returns no bytes once the other end has gone. *)
Module System.
Import Py.

(** The participant that connects first is session 1 of the server. *)
Inductive slot := First | Second.

(** One connection: the thread at the far end, the address the server sees
    it under, and what travels in each direction, oldest first. *)
Record link := Link {
  peer : Client.state;
  address : string;
  down : list string;
  up : list string
}.

Record state := State {
  server : Server.state;
  link1 : link;
  link2 : link;
  wire : list string
}.

Inductive thread := Srv (t : Server.tid) | Cli (k : slot).

Definition link_of (k : slot) (s : state) : link :=
  match k with First => link1 s | Second => link2 s end.

Definition set_link (k : slot) (l : link) (s : state) : state :=
  match k with
  | First => State (server s) l (link2 s) (wire s)
  | Second => State (server s) (link1 s) l (wire s)
  end.

Definition tid_of (k : slot) : Server.tid :=
  match k with First => Server.Handler1 | Second => Server.Handler2 end.

Definition connected (l : link) : bool :=
  match Client.pc (peer l) with
  | Client.AtConnect => false
  | _ => true
  end.

Definition gone (l : link) : bool :=
  match Client.pc (peer l) with
  | Client.Crashed _ => true
  | _ => false
  end.

Definition closed (h : option Server.thread) : bool :=
  match h with
  | Some (Server.Thread _ (Server.Finished _)) => true
  | _ => false
  end.

Definition listening (m : Server.mpc) : bool :=
  match m with
  | Server.AtAccept1 | Server.AtAccept2 => true
  | _ => false
  end.

(** The signal a handler puts on its connection from program point [p]. *)
Definition signal_of (p : Server.hpc) : list string :=
  match p with
  | Server.AtSendGo => ["GO"]
  | Server.AtSendWait => ["WAIT"]
  | _ => []
  end.

(** One step of [server()]: an [accept] returns once the participant whose
    turn it is to connect has connected. *)
Definition accept (s : state) : option state :=
  let go (r : io) :=
    match Server.step Server.Main r (server s) with
    | Some srv => Some (State srv (link1 s) (link2 s) (wire s))
    | None => None
    end in
  match Server.main (server s) with
  | Server.AtBind => go (Returns "")
  | Server.AtAccept1 =>
      if connected (link1 s) then go (Returns (address (link1 s))) else None
  | Server.AtAccept2 =>
      if connected (link2 s) then go (Returns (address (link2 s))) else None
  | Server.Exited _ => None
  end.

(** What the socket call of a handler at [p] returns on connection [l],
    with what is left on the way up; [None] when the call waits. *)
Definition incoming (p : Server.hpc) (l : link)
  : option (io * list string) :=
  match p, up l with
  | Server.AtRecv, [] => if gone l then Some (Returns "", []) else None
  | Server.AtRecv, m :: rest => Some (Returns m, rest)
  | _, waiting => Some (Returns "", waiting)
  end.

(** One step of the handler of connection [k]. *)
Definition serve (k : slot) (s : state) : option state :=
  let l := link_of k s in
  match Server.handler (tid_of k) (server s) with
  | None => None
  | Some h =>
      let p := Server.pc h in
      match incoming p l with
      | None => None
      | Some (r, rest) =>
          match Server.step (tid_of k) r (server s) with
          | None => None
          | Some srv =>
              Some (set_link k (Link (peer l) (address l)
                                     (down l ++ signal_of p)%list rest)
                             (State srv (link1 s) (link2 s) (wire s)))
          end
      end
  end.

(** One step of the participant on connection [k].  It connects once the
    server listens, the second participant after the first. *)
Definition participate (k : slot) (s : state) : option state :=
  let l := link_of k s in
  let move (r : io) (down' up' : list string) (wire' : list string) :=
    match Client.client r (peer l) with
    | Some c => Some (set_link k (Link c (address l) down' up')
                               (State (server s) (link1 s) (link2 s) wire'))
    | None => None
    end in
  match Client.pc (peer l) with
  | Client.AtConnect =>
      if listening (Server.main (server s))
         && match k with First => true | Second => connected (link1 s) end
      then move (Returns "") (down l) (up l) (wire s)
      else None
  | Client.AtRecv =>
      match down l with
      | signal :: rest => move (Returns signal) rest (up l) (wire s)
      | [] =>
          if closed (Server.handler (tid_of k) (server s))
          then move (Returns "") [] (up l) (wire s)
          else None
      end
  | Client.AtSend message =>
      move (Returns "") (down l) (up l ++ [message])%list (message :: wire s)
  | _ => move (Returns "") (down l) (up l) (wire s)
  end.

Definition step (t : thread) (s : state) : option state :=
  match t with
  | Srv Server.Main => accept s
  | Srv Server.Handler1 => serve First s
  | Srv Server.Handler2 => serve Second s
  | Cli k => participate k s
  end.

Fixpoint run (sched : list thread) (s : state) : option state :=
  match sched with
  | [] => Some s
  | t :: rest =>
      match step t s with
      | None => None
      | Some s' => run rest s'
      end
  end.

(** Both programs before their first statement. *)
Definition initial (name1 : string) (start1 : Z) (addr1 : string)
                   (name2 : string) (start2 : Z) (addr2 : string) : state :=
  State Server.initial
        (Link (Client.start name1 start1) addr1 [] [])
        (Link (Client.start name2 start2) addr2 [] [])
        [].

(** The run of the repository as it is: [Client1] starting at 1 connects
    first, [Client2] starting at 2 second. *)
Definition scenario (addr1 addr2 : string) : state :=
  initial "Client1" 1 addr1 "Client2" 2 addr2.

(** Payloads in the order of transmission. *)
Definition transmitted (s : state) : list string := rev (wire s).

(** The [k]-th payload of the expected run, counting from 0. *)
Definition expected_nth (k : nat) : string :=
  (if Nat.even k then "Client1" else "Client2") ++ ":"
  ++ str (Z.of_nat k + 1).

Definition expected (n : nat) : list string := map expected_nth (seq 0 n).

(** *** Runs used to instantiate the theorems *)

Definition address1 : string := "('127.0.0.1', 50001)".
Definition address2 : string := "('127.0.0.1', 50002)".

(** The server starts, the first participant connects and is accepted,
    and one exchange takes place on its connection: lock, test, GO, read of
    the GO, payload, read of the payload.  The second participant does not
    move. *)
Definition first_exchange : list thread :=
  [Srv Server.Main; Cli First; Srv Server.Main;
   Srv Server.Handler1; Srv Server.Handler1; Srv Server.Handler1;
   Cli First; Cli First; Srv Server.Handler1].

Definition state_after (sched : list thread) (s : state) : state :=
  match run sched s with
  | Some s' => s'
  | None => s
  end.

Definition after_first_exchange : state :=
  Eval vm_compute in state_after first_exchange (scenario address1 address2).

(** The same exchange by a participant whose name holds a colon, followed
    by its wake-up: the handler has ended on the payload and the participant
    is back at its read. *)
Definition after_bad_name : state :=
  Eval vm_compute in
    state_after (first_exchange ++ [Cli First])
                (initial "a:b" 1 address1 "Client2" 2 address2).

(** The first participant holds a GO that it has not read yet. *)
Definition after_go : state :=
  Eval vm_compute in
    state_after [Srv Server.Main; Cli First; Srv Server.Main;
                 Srv Server.Handler1; Srv Server.Handler1;
                 Srv Server.Handler1]
                (scenario address1 address2).

(** *** The invariant of the runs of [scenario] *)

(** The counters of the two participants once [n] payloads have been
    transmitted. *)
Definition number1 (n : nat) : Z :=
  if Nat.even n then Z.of_nat n + 1 else Z.of_nat n + 2.
Definition number2 (n : nat) : Z :=
  if Nat.even n then Z.of_nat n + 2 else Z.of_nat n + 1.

(** A participant that is neither connecting nor about to send. *)
Definition idle (p : Client.cpc) : bool :=
  match p with
  | Client.AtRecv | Client.AtSleepSecond | Client.AtSleepTenth => true
  | _ => false
  end.

Definition waits (d : list string) : Prop := Forall (eq "WAIT") d.

(** What a connection holds, by the program point of its handler, once [n]
    payloads have been transmitted.  While the handler waits for the reply
    to a GO there is exactly one of: the GO on its way behind the WAITs
    sent before it, the participant about to send payload [n], or payload
    [n - 1] on its way.  At any other point there are only WAITs on their
    way. *)
Definition link_ok (n : nat) (h : option Server.thread) (l : link) : Prop :=
  match h with
  | None =>
      down l = [] /\ up l = []
      /\ (Client.pc (peer l) = Client.AtConnect
          \/ Client.pc (peer l) = Client.AtRecv)
  | Some (Server.Thread _ Server.AtRecv) =>
      (exists ws, down l = (ws ++ ["GO"])%list /\ waits ws /\ up l = []
                  /\ idle (Client.pc (peer l)) = true)
      \/ (down l = [] /\ up l = []
          /\ Client.pc (peer l) = Client.AtSend (expected_nth n))
      \/ (down l = [] /\ idle (Client.pc (peer l)) = true
          /\ exists m, n = S m /\ up l = [expected_nth m])
  | Some (Server.Thread _ (Server.Finished _)) => False
  | Some _ =>
      waits (down l) /\ up l = [] /\ idle (Client.pc (peer l)) = true
  end.

Record invariant (s : state) : Prop := Invariant {
  inv_server : Server.invariant (server s);
  inv_main : forall e, Server.main (server s) <> Server.Exited (Some e);
  inv_name1 : Client.client_name (peer (link1 s)) = "Client1";
  inv_name2 : Client.client_name (peer (link2 s)) = "Client2";
  inv_number1 :
    Client.current_number (peer (link1 s)) = number1 (length (wire s));
  inv_number2 :
    Client.current_number (peer (link2 s)) = number2 (length (wire s));
  inv_wire : wire s = rev (expected (length (wire s)));
  inv_count :
    length (wire s)
    = (Server.accepted_count (server s) + length (up (link1 s))
       + length (up (link2 s)))%nat;
  inv_link1 : link_ok (length (wire s)) (Server.handler1 (server s))
                      (link1 s);
  inv_link2 : link_ok (length (wire s)) (Server.handler2 (server s))
                      (link2 s);
  inv_order : connected (link2 s) = true -> connected (link1 s) = true;
  inv_bind : Server.main (server s) = Server.AtBind ->
             connected (link1 s) = false
}.

(** *** Reaching further states *)

Definition leads (s s' : state) : Prop :=
  exists sched, run sched s = Some s'.

Definition flip (k : slot) : slot :=
  match k with First => Second | Second => First end.

(** Program point of the handler of connection [k], if it has started. *)
Definition pc_at (k : slot) (s : state) : option Server.hpc :=
  match Server.handler (tid_of k) (server s) with
  | Some h => Some (Server.pc h)
  | None => None
  end.

(** Where a handler of identity [i] goes from [p] when its socket call
    succeeds and it is not reading. *)
Definition advance (i turn : Z) (p : Server.hpc) : Server.hpc :=
  match p with
  | Server.AtLock => Server.AtTest
  | Server.AtTest => if turn =? i then Server.AtSendGo else Server.AtSendWait
  | Server.AtSendGo => Server.AtRecv
  | Server.AtSendWait => Server.AtSleep
  | Server.AtSleep => Server.AtLock
  | other => other
  end.

(** Number of steps from [p] to the read of the reply, for the handler
    whose turn it is. *)
Definition distance (p : Server.hpc) : nat :=
  match p with
  | Server.AtSleep => 4
  | Server.AtLock => 3
  | Server.AtTest => 2
  | Server.AtSendGo => 1
  | _ => 0
  end.

(** What a step that transmits and accepts nothing leaves as it was. *)
Record frame (s s' : state) : Prop := Frame {
  same_wire : wire s' = wire s;
  same_turn : Server.turn_of (server s') = Server.turn_of (server s);
  same_main : Server.main (server s') = Server.main (server s);
  same_up1 : up (link1 s') = up (link1 s);
  same_up2 : up (link2 s') = up (link2 s)
}.

(** [all f s]: every character of [s] satisfies [f]. *)
Fixpoint all (f : ascii -> bool) (s : string) : bool :=
  match s with
  | EmptyString => true
  | String c r => f c && all f r
  end.

(** An ASCII character other than the colon. *)
Definition plain (c : ascii) : bool :=
  between 0 127 c && negb (Ascii.eqb c colon).

End System.

(** * The arbiter: invariant and properties of [server.py] *)
Module ServerProofs.
Import Py Server.

#[local] Arguments str : simpl never.
#[local] Arguments String.append : simpl never.

Ltac break_match H :=
  repeat match type of H with
         | context [match ?x with _ => _ end] =>
             lazymatch x with
             | context [match _ with _ => _ end] => fail
             | _ => destruct x eqn:?; simpl in H
             end
         end;
  try discriminate H.

Ltac unfold_obs :=
  unfold accepted_count, acceptance_order, turn_of, locked, history,
         spawned in *;
  simpl in *.

Lemma alternation_S n :
  rev (alternation (S n))
  = (if Nat.even n then 1 else 2) :: rev (alternation n).
Proof.
  unfold alternation. rewrite seq_S, map_app, rev_app_distr. reflexivity.
Qed.

Lemma even_S n : Nat.even (S n) = negb (Nat.even n).
Proof. rewrite Nat.even_succ. unfold Nat.odd. reflexivity. Qed.

Lemma invariant_initial : invariant initial.
Proof.
  constructor; unfold spawned; simpl; try easy; try discriminate; auto.
Qed.

(** The summary of a handler step, read off the seven program points. *)
Lemma handle_client_effect i a r p g p' g' :
  i = 1 \/ i = 2 ->
  branch_ok i p (turn g) ->
  handle_client i a r p g = Some (p', g') ->
  effect i p g p' g'.
Proof.
  intros Hi Hb H. destruct g as [tn lk tr].
  unfold handle_client, on_data, unwind in H; simpl in H.
  break_match H; inversion H; subst; clear H; simpl in *.
  all: repeat match goal with
         | H : (_ =? _) = true |- _ => apply Z.eqb_eq in H
         | H : (_ =? _) = false |- _ => apply Z.eqb_neq in H
         end.
  all: constructor; simpl; try rewrite Z.eqb_refl; intros; auto;
    try discriminate; try lia.
  all: try solve [ left; split; [reflexivity|discriminate] ].
  all: try solve [ right; repeat split; auto;
                   destruct (Z.eqb_spec i 1); congruence ].
  all: try solve [ match goal with
                   | H : ?j <> ?i |- context [?i =? ?j] =>
                       destruct (Z.eqb_spec i j); [congruence|reflexivity]
                   end ].
Qed.

Ltac branch_case He Hb Eb Et :=
  let a := fresh "a" in let p := fresh "p" in let Eh := fresh "Eh" in
  intros a p Eh;
  first
    [ inversion Eh; subst; exact Eb
    | specialize (Hb _ _ Eh);
      destruct Et as [[_ ->]|(-> & -> & _ & _ & _)]; [exact Hb|];
      subst; simpl in He; destruct p; simpl in *; try discriminate He;
      exact I ].

Ltac alone_case Ht Hs Ha Hn Et Ef :=
  let Hst := fresh "Hst" in
  intros Hst;
  first
    [ discriminate Hst
    | let Hc := fresh "Hc" in let Hsig := fresh "Hsig" in
      destruct (Ha Hst) as [Hc Hsig];
      split; [|rewrite Ef by discriminate; exact Hsig];
      destruct Et as [[-> _]|(-> & -> & Etg & _ & ->)]; [exact Hc|];
      simpl; rewrite Ht in Etg;
      destruct (Datatypes.length _) as [|[|?]]; simpl in *;
      try lia; discriminate Etg
    | exfalso;
      match type of Hs with
      | context [match ?m with _ => _ end] => destruct m as [| | |[?|]]
      end; simpl in Hs; intuition congruence ].

Ltac lock_case Hl He Een :=
  rewrite Hl in Een; revert Een He; clear;
  repeat match goal with
         | |- context [inside ?p] => destruct (inside p)
         | |- context [holds_lock ?h] => destruct (holds_lock h)
         end;
  simpl; intros Een He; try reflexivity; try discriminate He;
  discriminate (Een eq_refl eq_refl).

(** The part the two handler cases of [invariant_step] share; the arguments
    are the hypotheses as that proof names them. *)
Ltac handler_case Ht Ho Hl He Hb Hs Ha Hn Een El Eb Et Ef :=
  constructor; unfold_obs;
  [ destruct Et as [[Ea Etn]|(-> & -> & Etg & Etn & Ea)]; rewrite Ea, Etn;
    [ exact Ht
    | simpl length; rewrite even_S; rewrite Ht in Etg;
      destruct (Nat.even _); simpl; [reflexivity || discriminate Etg ..] ]
  | destruct Et as [[Ea Etn]|(-> & -> & Etg & Etn & Ea)]; rewrite Ea;
    [ exact Ho
    | simpl length; rewrite alternation_S, <- Ho; rewrite Ht in Etg;
      destruct (Nat.even _); simpl; [reflexivity || discriminate Etg ..] ]
  | rewrite El, ?Hl; lock_case Hl He Een
  | lock_case Hl He Een
  | branch_case He Hb Eb Et
  | branch_case He Hb Eb Et
  | exact Hs
  | alone_case Ht Hs Ha Hn Et Ef
  | alone_case Ht Hs Ha Hn Et Ef ].

Lemma invariant_step s t r s' :
  invariant s -> step t r s = Some s' -> invariant s'.
Proof.
  intros [Ht Ho Hl He Hb1 Hb2 Hs Ha Hn] Hstep.
  destruct s as [g m h1 h2]. unfold_obs.
  destruct t; unfold step in Hstep; simpl in Hstep.
  - unfold server in Hstep; simpl in Hstep.
    destruct h1 as [[a1 p1]|], h2 as [[a2 p2]|]; simpl in *;
    destruct m, r; inversion Hstep; subst; clear Hstep; constructor;
    unfold_obs; auto;
    try solve [ intuition (try congruence; try discriminate) ];
    try solve [ intros ? ? E; inversion E; subst; exact I ].
  - destruct h1 as [[a1 p1]|]; [|discriminate]. simpl in Hstep.
    destruct (handle_client 1 a1 r p1 g) as [[p' g']|] eqn:E; [|discriminate].
    inversion Hstep; subst; clear Hstep.
    destruct (handle_client_effect _ _ _ _ _ _ _ (or_introl eq_refl)
                (Hb1 _ _ eq_refl) E) as [Een El Eb Et Es Ef].
    simpl in *.
    handler_case Ht Ho Hl He Hb2 Hs Ha Hn Een El Eb Et Ef.
  - destruct h2 as [[a2 p2]|]; [|discriminate]. simpl in Hstep.
    destruct (handle_client 2 a2 r p2 g) as [[p' g']|] eqn:E; [|discriminate].
    inversion Hstep; subst; clear Hstep.
    destruct (handle_client_effect _ _ _ _ _ _ _ (or_intror eq_refl)
                (Hb2 _ _ eq_refl) E) as [Een El Eb Et Es Ef].
    simpl in *.
    handler_case Ht Ho Hl He Hb1 Hs Ha Hn Een El Eb Et Ef.
Qed.

Lemma run_invariant sched : forall s s',
  invariant s -> run sched s = Some s' -> invariant s'.
Proof.
  induction sched as [|[t r] rest IH]; simpl; intros s s' Hi Hrun.
  - inversion Hrun; subst; exact Hi.
  - destruct (step t r s) as [s1|] eqn:E; [|discriminate].
    exact (IH _ _ (invariant_step _ _ _ _ Hi E) Hrun).
Qed.

Lemma reachable_invariant s : reachable s -> invariant s.
Proof.
  induction 1 as [|s t r s' _ IH Hstep];
    [exact invariant_initial | exact (invariant_step _ _ _ _ IH Hstep)].
Qed.

Lemma run_reachable sched : forall s s',
  reachable s -> run sched s = Some s' -> reachable s'.
Proof.
  induction sched as [|[t r] rest IH]; simpl; intros s s' Hr Hrun.
  - inversion Hrun; subst; exact Hr.
  - destruct (step t r s) as [s1|] eqn:E; [|discriminate].
    exact (IH _ _ (reach_step _ _ _ _ Hr E) Hrun).
Qed.

(** A handler step seen from the whole process: the thread moves by
    [handle_client], with the effect summarised above, and nothing else
    changes. *)
Lemma handler_step s t r s' :
  invariant s -> t <> Main -> step t r s = Some s' ->
  exists a p p',
    handler t s = Some (Thread a p)
    /\ handler t s' = Some (Thread a p')
    /\ handle_client (client_id_of t) a r p (globals_of s)
       = Some (p', globals_of s')
    /\ effect (client_id_of t) p (globals_of s) p' (globals_of s')
    /\ handler (other t) s' = handler (other t) s
    /\ main s' = main s.
Proof.
  intros Hi Hm Hstep. destruct t; [congruence| |];
    unfold step in Hstep; simpl in Hstep.
  - destruct (handler1 s) as [[a p]|] eqn:Eh; [|discriminate]. simpl in Hstep.
    destruct (handle_client 1 a r p (globals_of s)) as [[p' g']|] eqn:E;
      [|discriminate].
    inversion Hstep; subst; clear Hstep. exists a, p, p'. simpl.
    refine (conj Eh (conj eq_refl (conj E (conj _ (conj eq_refl
              eq_refl))))).
    apply (handle_client_effect _ _ _ _ _ _ _ (or_introl eq_refl)
             (inv_branch1 _ Hi _ _ Eh) E).
  - destruct (handler2 s) as [[a p]|] eqn:Eh; [|discriminate]. simpl in Hstep.
    destruct (handle_client 2 a r p (globals_of s)) as [[p' g']|] eqn:E;
      [|discriminate].
    inversion Hstep; subst; clear Hstep. exists a, p, p'. simpl.
    refine (conj Eh (conj eq_refl (conj E (conj _ (conj eq_refl
              eq_refl))))).
    apply (handle_client_effect _ _ _ _ _ _ _ (or_intror eq_refl)
             (inv_branch2 _ Hi _ _ Eh) E).
Qed.

(** A step of [server()] touches neither [turn] nor the lock, accepts and
    signals nothing, and leaves the running handlers alone. *)
Lemma main_step r s s' :
  invariant s -> step Main r s = Some s' ->
  turn_of s' = turn_of s
  /\ locked s' = locked s
  /\ accepted_ids (history s') = accepted_ids (history s)
  /\ (forall i, signals_to i (history s') = signals_to i (history s))
  /\ (forall t h, handler t s = Some h -> handler t s' = Some h).
Proof.
  intros Hi Hstep. pose proof (inv_spawned _ Hi) as Hs.
  destruct s as [g m h1 h2]. unfold step, server in Hstep. unfold_obs.
  destruct m, r; inversion Hstep; subst; clear Hstep; simpl;
    repeat split; auto; intros t h Hh; destruct t; simpl in *; auto;
    destruct Hs as [H1 H2]; rewrite Hh in *; simpl in *; discriminate.
Qed.

Lemma tid_eq_dec (t u : tid) : {t = u} + {t <> u}.
Proof. decide equality. Defined.

(** Once the lock is free, a handler that has not ended can move. *)
Lemma free_handler_moves s t a p :
  invariant s -> locked s = false -> handler t s = Some (Thread a p) ->
  (forall x, p <> Finished x) ->
  exists s', step t (Returns "") s = Some s'.
Proof.
  intros Hi Hl Hh Hp.
  assert (Hin : inside p = false).
  { pose proof (inv_lock _ Hi) as L. rewrite Hl in L.
    symmetry in L. apply orb_false_iff in L. destruct L as [L1 L2].
    destruct t; simpl in Hh; try discriminate; rewrite Hh in *; assumption. }
  destruct t; simpl in Hh; try discriminate;
    unfold step; simpl; rewrite Hh; simpl; unfold locked in Hl;
    destruct p; simpl in *; try discriminate; try rewrite Hl; eauto;
    exfalso; eapply Hp; reflexivity.
Qed.

(** *** Ordering *)

(** C1.  Along every run from the start of the server, each step either
    accepts nothing and leaves [turn] alone, or accepts one message from the
    session whose identity equals [turn] and hands [turn] to the other
    session; the identities of the accepted messages, in order, are
    therefore 1, 2, 1, 2, ... *)
Theorem acceptance_alternates sched s t r s' :
  run sched initial = Some s ->
  step t r s = Some s' ->
  acceptance_order s' = alternation (accepted_count s')
  /\ ((accepted_ids (history s') = accepted_ids (history s)
       /\ turn_of s' = turn_of s)
      \/ (accepted_ids (history s')
          = client_id_of t :: accepted_ids (history s)
          /\ t <> Main
          /\ turn_of s = client_id_of t
          /\ turn_of s' = client_id_of (other t))).
Proof.
  intros Hrun Hstep.
  pose proof (run_invariant _ _ _ invariant_initial Hrun) as Hi.
  pose proof (invariant_step _ _ _ _ Hi Hstep) as Hi'.
  split.
  - unfold acceptance_order. rewrite (inv_order _ Hi'). apply rev_involutive.
  - destruct (tid_eq_dec t Main) as [->|Hm].
    + left. destruct (main_step _ _ _ Hi Hstep) as (Ht & _ & Ha & _).
      split; assumption.
    + destruct (handler_step _ _ _ _ Hi Hm Hstep)
        as (a & p & p' & _ & _ & _ & [_ _ _ Et _ _] & _ & _).
      destruct Et as [[Ea Et]|(_ & _ & Etg & Et & Ea)];
        [left; split; assumption|].
      right. repeat split; try assumption.
      unfold turn_of. rewrite Et. destruct t; simpl; congruence.
Qed.

Lemma acceptance_alternates_witness :
  acceptance_order at_accept = alternation (accepted_count at_accept)
  /\ ((accepted_ids (history at_accept) = accepted_ids (history at_recv)
       /\ turn_of at_accept = turn_of at_recv)
      \/ (accepted_ids (history at_accept)
          = client_id_of Handler1 :: accepted_ids (history at_recv)
          /\ Handler1 <> Main
          /\ turn_of at_recv = client_id_of Handler1
          /\ turn_of at_accept = client_id_of (other Handler1))).
Proof.
  exact (acceptance_alternates until_recv at_recv Handler1
           (Returns "Client1:1") at_accept eq_refl eq_refl).
Defined.

(** C2.  [turn] is 1 when the server starts, and after any run it is 1 when
    the number of messages accepted so far is even and 2 when it is odd. *)
Theorem turn_parity sched s :
  run sched initial = Some s ->
  turn_of initial = 1
  /\ turn_of s = if Nat.even (accepted_count s) then 1 else 2.
Proof.
  intros Hrun. split; [reflexivity|].
  exact (inv_turn _ (run_invariant _ _ _ invariant_initial Hrun)).
Qed.

Lemma turn_parity_witness :
  turn_of initial = 1
  /\ turn_of at_accept
     = if Nat.even (accepted_count at_accept) then 1 else 2.
Proof. exact (turn_parity until_accept at_accept eq_refl). Defined.

(** C3.  In every state a run reaches, a handler standing in the GO branch
    (about to send GO, or waiting for the reply to it) holds the lock and
    [turn] equals its identity; and a step that puts a signal on session
    [i] puts GO only from inside the lock with [turn = i] before and after,
    and WAIT only with [turn <> i]. *)
Theorem go_only_on_turn sched s t r s' i :
  run sched initial = Some s ->
  step t r s = Some s' ->
  (forall u a p, handler u s = Some (Thread a p) ->
                 p = AtSendGo \/ p = AtRecv ->
                 locked s = true /\ turn_of s = client_id_of u)
  /\ (signals_to i (history s') = signals_to i (history s)
      \/ (signals_to i (history s') = "GO" :: signals_to i (history s)
          /\ i = client_id_of t
          /\ at_pc t AtSendGo s /\ locked s = true /\ turn_of s = i
          /\ at_pc t AtRecv s' /\ locked s' = true /\ turn_of s' = i)
      \/ (signals_to i (history s') = "WAIT" :: signals_to i (history s)
          /\ i = client_id_of t
          /\ at_pc t AtSendWait s /\ locked s = true /\ turn_of s <> i)).
Proof.
  intros Hrun Hstep.
  pose proof (run_invariant _ _ _ invariant_initial Hrun) as Hi.
  pose proof (invariant_step _ _ _ _ Hi Hstep) as Hi'.
  assert (Hin : forall x u a p, invariant x ->
            handler u x = Some (Thread a p) -> inside p = true ->
            locked x = true).
  { intros x u a p Hx Hu Hp. rewrite (inv_lock _ Hx).
    destruct u; simpl in Hu; try discriminate; rewrite Hu; simpl;
      rewrite Hp; auto using orb_true_r. }
  assert (Hbr : forall x u a p, invariant x ->
            handler u x = Some (Thread a p) ->
            branch_ok (client_id_of u) p (turn_of x)).
  { intros x u a p Hx Hu. destruct u; simpl in Hu; try discriminate;
      [exact (inv_branch1 _ Hx _ _ Hu) | exact (inv_branch2 _ Hx _ _ Hu)]. }
  split.
  - intros u a p Hu Hp. split.
    + apply (Hin s u a p Hi Hu). destruct Hp; subst; reflexivity.
    + pose proof (Hbr s u a p Hi Hu) as B. destruct Hp; subst; exact B.
  - destruct (tid_eq_dec t Main) as [->|Hm].
    + left. destruct (main_step _ _ _ Hi Hstep) as (_ & _ & _ & Hs & _).
      apply Hs.
    + destruct (handler_step _ _ _ _ Hi Hm Hstep)
        as (a & p & p' & Hh & Hh' & _ & [_ _ _ _ Es Ef] & _ & _).
      destruct (Z.eq_dec i (client_id_of t)) as [->|Hne];
        [|left; apply Ef; assumption].
      destruct Es as [[Es _]|[(-> & -> & Es)|(-> & -> & Es)]];
        [left; exact Es | right; left | right; right].
      * pose proof (Hbr _ _ _ _ Hi Hh) as B.
        pose proof (Hbr _ _ _ _ Hi' Hh') as B'. simpl in B, B'.
        repeat split; try assumption; try (eexists; eassumption).
        -- apply (Hin s t a AtSendGo Hi Hh eq_refl).
        -- apply (Hin s' t a AtRecv Hi' Hh' eq_refl).
      * pose proof (Hbr _ _ _ _ Hi Hh) as B. simpl in B.
        repeat split; try assumption; try (eexists; eassumption).
        apply (Hin s t a AtSendWait Hi Hh eq_refl).
Qed.

Lemma go_only_on_turn_witness :
  (forall u a p, handler u at_go = Some (Thread a p) ->
                 p = AtSendGo \/ p = AtRecv ->
                 locked at_go = true /\ turn_of at_go = client_id_of u)
  /\ (signals_to 1 (history at_recv) = signals_to 1 (history at_go)
      \/ (signals_to 1 (history at_recv)
          = "GO" :: signals_to 1 (history at_go)
          /\ 1 = client_id_of Handler1
          /\ at_pc Handler1 AtSendGo at_go /\ locked at_go = true
          /\ turn_of at_go = 1
          /\ at_pc Handler1 AtRecv at_recv /\ locked at_recv = true
          /\ turn_of at_recv = 1)
      \/ (signals_to 1 (history at_recv)
          = "WAIT" :: signals_to 1 (history at_go)
          /\ 1 = client_id_of Handler1
          /\ at_pc Handler1 AtSendWait at_go /\ locked at_go = true
          /\ turn_of at_go <> 1)).
Proof.
  exact (go_only_on_turn until_go at_go Handler1 (Returns "") at_recv 1
           eq_refl eq_refl).
Defined.

(** *** The ways a session ends *)

Lemma split_length sep s : length (split sep s) = S (occurrences sep s).
Proof.
  induction s as [|c r IH]; simpl; [reflexivity|].
  destruct (Ascii.eqb c sep); simpl; [rewrite IH; reflexivity|].
  destruct (split sep r); simpl in *; [discriminate IH | exact IH].
Qed.

Lemma handler_of_set t h g s :
  t <> Main ->
  handler t (set_handler t h g s) = Some h
  /\ handler (other t) (set_handler t h g s) = handler (other t) s
  /\ main (set_handler t h g s) = main s
  /\ globals_of (set_handler t h g s) = g.
Proof. destruct t; simpl; intros; try congruence; auto. Qed.

(** The step of a handler that exists, as [handle_client] computes it. *)
Lemma step_handler t r s a p :
  handler t s = Some (Thread a p) ->
  step t r s
  = match handle_client (client_id_of t) a r p (globals_of s) with
    | Some (p', g') => Some (set_handler t (Thread a p') g' s)
    | None => None
    end.
Proof.
  destruct t; simpl; intros Hh; try discriminate; rewrite Hh; reflexivity.
Qed.

Lemma handler_not_main t s h : handler t s = Some h -> t <> Main.
Proof. destruct t; simpl; congruence. Qed.

Lemma rest_goes_on t s' :
  invariant s' -> locked s' = false -> goes_on t s'.
Proof.
  intros Hi Hl. split.
  - intros b q Hh Hq. exact (free_handler_moves _ _ _ _ Hi Hl Hh Hq).
  - intros He. unfold step, server.
    destruct (main s') as [| | |x]; eauto. exfalso. exact (He x eq_refl).
Qed.

(** C5.  When the read of a session's reply returns no bytes, the handler
    returns: it ends as [Returned], not through an exception; nothing is
    printed; [turn], [server()] and the other handler are untouched, the
    lock is released and the rest of the process goes on. *)
Theorem empty_read_ends_session sched s t a :
  run sched initial = Some s ->
  handler t s = Some (Thread a AtRecv) ->
  exists s',
    step t (Returns "") s = Some s'
    /\ handler t s' = Some (Thread a (Finished Returned))
    /\ history s' = history s
    /\ turn_of s' = turn_of s
    /\ locked s' = false
    /\ main s' = main s
    /\ handler (other t) s' = handler (other t) s
    /\ goes_on t s'.
Proof.
  intros Hrun Hh.
  pose proof (run_invariant _ _ _ invariant_initial Hrun) as Hi.
  pose proof (handler_not_main _ _ _ Hh) as Hm.
  pose proof (step_handler t (Returns "") s a AtRecv Hh) as Hstep.
  simpl in Hstep.
  eexists. split; [exact Hstep|].
  pose proof (invariant_step _ _ _ _ Hi Hstep) as Hi'.
  destruct (handler_of_set t (Thread a (Finished Returned))
              (set_lock false (globals_of s)) s Hm) as (H1 & H2 & H3 & H4).
  repeat split; try assumption;
    try (unfold history, turn_of, locked; rewrite H4; reflexivity);
    apply rest_goes_on; try assumption;
    unfold locked; rewrite H4; reflexivity.
Qed.

Lemma empty_read_ends_session_witness :
  exists s',
    step Handler1 (Returns "") at_recv = Some s'
    /\ handler Handler1 s' = Some (Thread peer_address (Finished Returned))
    /\ history s' = history at_recv
    /\ turn_of s' = turn_of at_recv
    /\ locked s' = false
    /\ main s' = main at_recv
    /\ handler (other Handler1) s' = handler (other Handler1) at_recv
    /\ goes_on Handler1 s'.
Proof.
  exact (empty_read_ends_session until_recv at_recv Handler1 peer_address
           eq_refl eq_refl).
Defined.

(** C6.  When a socket call of a handler raises [ConnectionResetError] or
    [BrokenPipeError], at whichever of its three socket calls, the handler
    prints the disconnect line and ends as [Disconnected]; the lock is
    released, [turn], [server()] and the other handler are untouched, and
    the rest of the process goes on. *)
Theorem disconnect_ends_one_session sched s t a p e :
  run sched initial = Some s ->
  handler t s = Some (Thread a p) ->
  p = AtSendGo \/ p = AtRecv \/ p = AtSendWait ->
  e = ConnectionResetError \/ e = BrokenPipeError ->
  exists s',
    step t (Raises e) s = Some s'
    /\ handler t s' = Some (Thread a (Finished Disconnected))
    /\ history s'
       = Printed ("Client " ++ str (client_id_of t) ++ " (" ++ a
                  ++ ") disconnected.") :: history s
    /\ turn_of s' = turn_of s
    /\ locked s' = false
    /\ main s' = main s
    /\ handler (other t) s' = handler (other t) s
    /\ goes_on t s'.
Proof.
  intros Hrun Hh Hp He.
  pose proof (run_invariant _ _ _ invariant_initial Hrun) as Hi.
  pose proof (handler_not_main _ _ _ Hh) as Hm.
  pose proof (step_handler t (Raises e) s a p Hh) as Hstep.
  assert (Hc : caught e = true) by (destruct He; subst; reflexivity).
  assert (Hhc : handle_client (client_id_of t) a (Raises e) p (globals_of s)
                = Some (unwind (client_id_of t) a e (globals_of s)))
    by (destruct Hp as [->|[->| ->]]; reflexivity).
  rewrite Hhc in Hstep. unfold unwind in Hstep. rewrite Hc in Hstep.
  eexists. split; [exact Hstep|].
  pose proof (invariant_step _ _ _ _ Hi Hstep) as Hi'.
  match type of Hstep with
  | _ = Some (set_handler _ ?h ?g _) =>
      destruct (handler_of_set t h g s Hm) as (H1 & H2 & H3 & H4)
  end.
  repeat split; try assumption;
    try (unfold history, turn_of, locked; rewrite H4; reflexivity);
    apply rest_goes_on; try assumption;
    unfold locked; rewrite H4; reflexivity.
Qed.

Lemma disconnect_ends_one_session_witness :
  exists s',
    step Handler1 (Raises ConnectionResetError) at_recv = Some s'
    /\ handler Handler1 s'
       = Some (Thread peer_address (Finished Disconnected))
    /\ history s'
       = Printed ("Client " ++ str (client_id_of Handler1) ++ " ("
                  ++ peer_address ++ ") disconnected.") :: history at_recv
    /\ turn_of s' = turn_of at_recv
    /\ locked s' = false
    /\ main s' = main at_recv
    /\ handler (other Handler1) s' = handler (other Handler1) at_recv
    /\ goes_on Handler1 s'.
Proof.
  exact (disconnect_ends_one_session until_recv at_recv Handler1
           peer_address AtRecv ConnectionResetError eq_refl eq_refl
           (or_intror (or_introl eq_refl)) (or_introl eq_refl)).
Defined.

(** C7.  A payload that is not empty and that the colon does not cut into
    exactly two fields, a payload without colon in particular, makes the
    unpacking of line 23 raise [ValueError]; the [except] clause does not
    catch it, so the handler thread ends with it.  The outcome is the same
    state every time: nothing printed, [turn] unchanged, the lock released,
    [server()] and the other handler untouched and able to go on. *)
Theorem malformed_payload_ends_handler sched s t a b data :
  run sched initial = Some s ->
  handler t s = Some (Thread a AtRecv) ->
  decode b = Some data ->
  data <> "" ->
  length (split colon data) <> 2%nat ->
  (occurrences colon data = 0%nat -> length (split colon data) = 1%nat)
  /\ caught ValueError = false
  /\ exists s',
    step t (Returns b) s = Some s'
    /\ handler t s' = Some (Thread a (Finished (Died ValueError)))
    /\ history s' = history s
    /\ turn_of s' = turn_of s
    /\ locked s' = false
    /\ main s' = main s
    /\ handler (other t) s' = handler (other t) s
    /\ goes_on t s'.
Proof.
  intros Hrun Hh Hd Hne Hlen.
  split; [intros H0; rewrite split_length, H0; reflexivity|].
  split; [reflexivity|].
  pose proof (run_invariant _ _ _ invariant_initial Hrun) as Hi.
  pose proof (handler_not_main _ _ _ Hh) as Hm.
  pose proof (step_handler t (Returns b) s a AtRecv Hh) as Hstep.
  assert (Hhc : handle_client (client_id_of t) a (Returns b) AtRecv
                  (globals_of s)
                = Some (Finished (Died ValueError),
                        set_lock false (globals_of s))).
  { simpl. rewrite Hd. unfold on_data.
    destruct (String.eqb_spec data "") as [E|_]; [contradiction|].
    destruct (split colon data) as [|f1 [|f2 [|f3 fs]]]; simpl in Hlen;
      try reflexivity. congruence. }
  rewrite Hhc in Hstep.
  eexists. split; [exact Hstep|].
  pose proof (invariant_step _ _ _ _ Hi Hstep) as Hi'.
  destruct (handler_of_set t (Thread a (Finished (Died ValueError)))
              (set_lock false (globals_of s)) s Hm) as (H1 & H2 & H3 & H4).
  repeat split; try assumption;
    try (unfold history, turn_of, locked; rewrite H4; reflexivity);
    apply rest_goes_on; try assumption;
    unfold locked; rewrite H4; reflexivity.
Qed.

Lemma malformed_payload_ends_handler_witness :
  (occurrences colon "Client1" = 0%nat ->
   length (split colon "Client1") = 1%nat)
  /\ caught ValueError = false
  /\ exists s',
    step Handler1 (Returns "Client1") at_recv = Some s'
    /\ handler Handler1 s'
       = Some (Thread peer_address (Finished (Died ValueError)))
    /\ history s' = history at_recv
    /\ turn_of s' = turn_of at_recv
    /\ locked s' = false
    /\ main s' = main at_recv
    /\ handler (other Handler1) s' = handler (other Handler1) at_recv
    /\ goes_on Handler1 s'.
Proof.
  refine (malformed_payload_ends_handler until_recv at_recv Handler1
            peer_address "Client1" "Client1" eq_refl eq_refl eq_refl _ _).
  - discriminate.
  - simpl. lia.
Defined.

(** *** What an ended session leaves behind *)

Lemma branch_of_invariant s u a p :
  invariant s -> handler u s = Some (Thread a p) ->
  branch_ok (client_id_of u) p (turn_of s).
Proof.
  intros Hi Hu. destruct u; simpl in Hu; try discriminate;
    [exact (inv_branch1 _ Hi _ _ Hu) | exact (inv_branch2 _ Hi _ _ Hu)].
Qed.

Lemma other_of_other t u : t <> Main -> u <> Main -> u <> t -> other u = t.
Proof. destruct t, u; simpl; congruence. Qed.

(** Once session [t] has ended while [turn] names it, no step changes
    [turn], and the only signal a step can put on the other session is
    WAIT. *)
Lemma stuck_step t s u r s' :
  invariant s -> ended t s -> turn_of s = client_id_of t ->
  step u r s = Some s' ->
  ended t s' /\ turn_of s' = client_id_of t
  /\ (signals_to (client_id_of (other t)) (history s')
      = signals_to (client_id_of (other t)) (history s)
      \/ signals_to (client_id_of (other t)) (history s')
         = "WAIT" :: signals_to (client_id_of (other t)) (history s)).
Proof.
  intros Hi (a & x & Ha) Ht Hstep.
  pose proof (handler_not_main _ _ _ Ha) as Hm.
  destruct (tid_eq_dec u Main) as [->|Hu].
  - destruct (main_step _ _ _ Hi Hstep) as (Hturn & _ & _ & Hs & Hh).
    split; [exists a, x; apply Hh; exact Ha|].
    split; [congruence | left; apply Hs].
  - destruct (tid_eq_dec u t) as [->|Hut].
    + rewrite (step_handler _ _ _ _ _ Ha) in Hstep. discriminate.
    + destruct (handler_step _ _ _ _ Hi Hu Hstep)
        as (b & p & p' & Hh & _ & _ & [_ _ _ Et Es Ef] & Ho & _).
      pose proof (other_of_other _ _ Hm Hu Hut) as Eo.
      pose proof (branch_of_invariant _ _ _ _ Hi Hh) as B.
      assert (Hid : client_id_of u <> client_id_of t)
        by (destruct t, u; simpl; congruence).
      assert (Eu : other t = u) by (destruct t, u; simpl; congruence).
      rewrite Eo in Ho. rewrite Eu.
      split; [exists a, x; rewrite Ho; exact Ha|].
      split.
      * destruct Et as [[_ Et]|(_ & _ & Etg & _ & _)];
          [unfold turn_of in *; congruence|].
        unfold turn_of in Ht. congruence.
      * destruct Es as [[Es _]|[(-> & _ & _)|(_ & _ & Es)]];
          [left; exact Es | | right; exact Es].
        simpl in B. congruence.
Qed.

Lemma stuck_run t sched : forall s s',
  invariant s -> ended t s -> turn_of s = client_id_of t ->
  run sched s = Some s' ->
  ended t s' /\ turn_of s' = client_id_of t
  /\ exists ws,
       signals_to (client_id_of (other t)) (history s')
       = (ws ++ signals_to (client_id_of (other t)) (history s))%list
       /\ Forall (eq "WAIT") ws.
Proof.
  induction sched as [|[u r] rest IH]; simpl; intros s s' Hi He Ht Hrun.
  - inversion Hrun; subst. repeat split; auto. exists []. split; auto.
  - destruct (step u r s) as [s1|] eqn:E; [|discriminate].
    destruct (stuck_step _ _ _ _ _ Hi He Ht E) as (He1 & Ht1 & Hs1).
    destruct (IH _ _ (invariant_step _ _ _ _ Hi E) He1 Ht1 Hrun)
      as (He' & Ht' & ws & Hws & Hall).
    repeat split; auto.
    destruct Hs1 as [Hs1|Hs1]; rewrite Hs1 in Hws.
    + exists ws. split; assumption.
    + exists (ws ++ ["WAIT"])%list. split.
      * rewrite <- app_assoc. exact Hws.
      * apply Forall_app. split; [assumption | repeat constructor].
Qed.

(** C10.  The step that ends a session, whichever way it ends, leaves
    [turn] as it was.  If [turn] then names the ended session, it names it
    in every later state, and every signal put on the other session from
    then on is WAIT. *)
Theorem ended_session_keeps_turn sched s t r s' :
  run sched initial = Some s ->
  step t r s = Some s' ->
  ended t s' ->
  turn_of s' = turn_of s
  /\ (turn_of s' = client_id_of t ->
      forall sched' s'', run sched' s' = Some s'' ->
        turn_of s'' = client_id_of t
        /\ ended t s''
        /\ exists ws,
             signals_to (client_id_of (other t)) (history s'')
             = (ws ++ signals_to (client_id_of (other t)) (history s'))%list
             /\ Forall (eq "WAIT") ws).
Proof.
  intros Hrun Hstep He.
  pose proof (run_invariant _ _ _ invariant_initial Hrun) as Hi.
  pose proof (invariant_step _ _ _ _ Hi Hstep) as Hi'.
  split.
  - destruct He as (a & x & Ha).
    pose proof (handler_not_main _ _ _ Ha) as Hm.
    destruct (handler_step _ _ _ _ Hi Hm Hstep)
      as (b & p & p' & _ & Hh' & _ & [_ _ _ Et _ _] & _ & _).
    destruct Et as [[_ Et]|(_ & -> & _)]; [exact Et|].
    rewrite Hh' in Ha. discriminate.
  - intros Ht sched' s'' Hrun'.
    destruct (stuck_run _ _ _ _ Hi' He Ht Hrun') as (He' & Ht' & Hws).
    repeat split; assumption.
Qed.

Lemma ended_session_keeps_turn_witness :
  turn_of at_return = turn_of at_recv
  /\ (turn_of at_return = client_id_of Handler1 ->
      forall sched' s'', run sched' at_return = Some s'' ->
        turn_of s'' = client_id_of Handler1
        /\ ended Handler1 s''
        /\ exists ws,
             signals_to (client_id_of (other Handler1)) (history s'')
             = (ws ++ signals_to (client_id_of (other Handler1))
                                 (history at_return))%list
             /\ Forall (eq "WAIT") ws).
Proof.
  refine (ended_session_keeps_turn until_recv at_recv Handler1 (Returns "")
            at_return eq_refl eq_refl _).
  exists peer_address, Returned. reflexivity.
Defined.

(** *** The two accepts *)

(** C8, as the code has it.  [server()] accepts two connections and no
    more: the first accept starts the handler of identity 1, the second the
    handler of identity 2, and after it no step of [server()] is left.
    While [server()] waits in its second accept, no handler step moves it;
    the handler of session 1 is already running, so one message, from
    participant 1, may have been accepted, but no more than one, and
    session 2 has been sent nothing. *)
Theorem two_sessions_in_order sched s :
  run sched initial = Some s ->
  spawned s
  /\ client_id_of Handler1 = 1 /\ client_id_of Handler2 = 2
  /\ (forall b, main s = AtAccept1 ->
        exists s', step Main (Returns b) s = Some s'
          /\ main s' = AtAccept2
          /\ handler Handler1 s' = Some (Thread b AtLock)
          /\ handler Handler2 s' = None)
  /\ (forall b, main s = AtAccept2 ->
        exists s', step Main (Returns b) s = Some s'
          /\ main s' = Exited None
          /\ handler Handler1 s' = handler Handler1 s
          /\ handler Handler2 s' = Some (Thread b AtLock))
  /\ (forall e r, main s = Exited e -> step Main r s = None)
  /\ (main s = AtAccept2 ->
      handler Handler2 s = None
      /\ (accepted_count s <= 1)%nat
      /\ acceptance_order s = alternation (accepted_count s)
      /\ signals_to 2 (history s) = []
      /\ forall t r s', t <> Main -> step t r s = Some s' ->
                        main s' = AtAccept2).
Proof.
  intros Hrun.
  pose proof (run_invariant _ _ _ invariant_initial Hrun) as Hi.
  pose proof (inv_spawned _ Hi) as Hs.
  split; [exact Hs|]. split; [reflexivity|]. split; [reflexivity|].
  unfold spawned in Hs.
  split; [|split; [|split; [|]]].
  - intros b Hm. unfold step, server. rewrite Hm in *. destruct Hs as [_ H2].
    eexists. split; [reflexivity|]. simpl.
    destruct (handler2 s); [discriminate H2|]. auto.
  - intros b Hm. unfold step, server. rewrite Hm.
    eexists. split; [reflexivity|]. simpl. auto.
  - intros e r Hm. unfold step, server. rewrite Hm. reflexivity.
  - intros Hm. rewrite Hm in Hs. destruct Hs as [_ H2].
    destruct (inv_alone _ Hi H2) as [Hc Hsig].
    split; [simpl; destruct (handler2 s); [discriminate H2|reflexivity]|].
    split; [exact Hc|].
    split; [unfold acceptance_order; rewrite (inv_order _ Hi);
            apply rev_involutive|].
    split; [exact Hsig|].
    intros t r s' Ht Hstep.
    destruct (handler_step _ _ _ _ Hi Ht Hstep)
      as (_ & _ & _ & _ & _ & _ & _ & _ & Hmain).
    congruence.
Qed.

Lemma two_sessions_in_order_witness :
  spawned at_accept
  /\ client_id_of Handler1 = 1 /\ client_id_of Handler2 = 2
  /\ (forall b, main at_accept = AtAccept1 ->
        exists s', step Main (Returns b) at_accept = Some s'
          /\ main s' = AtAccept2
          /\ handler Handler1 s' = Some (Thread b AtLock)
          /\ handler Handler2 s' = None)
  /\ (forall b, main at_accept = AtAccept2 ->
        exists s', step Main (Returns b) at_accept = Some s'
          /\ main s' = Exited None
          /\ handler Handler1 s' = handler Handler1 at_accept
          /\ handler Handler2 s' = Some (Thread b AtLock))
  /\ (forall e r, main at_accept = Exited e ->
                  step Main r at_accept = None)
  /\ (main at_accept = AtAccept2 ->
      handler Handler2 at_accept = None
      /\ (accepted_count at_accept <= 1)%nat
      /\ acceptance_order at_accept = alternation (accepted_count at_accept)
      /\ signals_to 2 (history at_accept) = []
      /\ forall t r s', t <> Main -> step t r at_accept = Some s' ->
                        main s' = AtAccept2).
Proof. exact (two_sessions_in_order until_accept at_accept eq_refl). Defined.

End ServerProofs.

(** * The two programs together: invariant of the runs of the scenario *)
Module SystemProofs.
Import Py System.

#[local] Arguments str : simpl never.
#[local] Arguments String.append : simpl never.
#[local] Arguments expected_nth : simpl never.
#[local] Arguments number1 : simpl never.
#[local] Arguments number2 : simpl never.
#[local] Arguments expected : simpl never.

Lemma uint_plain d : all plain (NilEmpty.string_of_uint d) = true.
Proof. induction d; simpl; auto. Qed.

Lemma str_plain z : all plain (str z) = true.
Proof.
  unfold str. destruct z as [|p|p]; simpl; [reflexivity| |];
    unfold NilZero.string_of_uint;
    destruct (Pos.to_uint p) eqn:E; try reflexivity;
    rewrite <- E; simpl; try apply uint_plain.
Qed.

Lemma plain_utf8 s : all plain s = true -> utf8 s = true.
Proof.
  induction s as [|c r IH]; simpl; [reflexivity|].
  intros H. apply andb_true_iff in H. destruct H as [Hc Hr].
  unfold plain in Hc. apply andb_true_iff in Hc. destruct Hc as [Hc _].
  rewrite Hc. auto.
Qed.

Lemma plain_split s : all plain s = true -> split colon s = [s].
Proof.
  induction s as [|c r IH]; simpl; [reflexivity|].
  intros H. apply andb_true_iff in H. destruct H as [Hc Hr].
  unfold plain in Hc. apply andb_true_iff in Hc. destruct Hc as [_ Hc].
  apply negb_true_iff in Hc. rewrite Hc, (IH Hr). reflexivity.
Qed.

Lemma split_field a b :
  all plain a = true -> split colon (a ++ String colon b) = a :: split colon b.
Proof.
  induction a as [|c r IH]; simpl; [reflexivity|].
  intros H. apply andb_true_iff in H. destruct H as [Hc Hr].
  unfold plain in Hc. apply andb_true_iff in Hc. destruct Hc as [_ Hc].
  apply negb_true_iff in Hc. rewrite Hc, (IH Hr). reflexivity.
Qed.

Lemma payload_decodes name z :
  all plain name = true ->
  decode (name ++ ":" ++ str z) = Some (name ++ ":" ++ str z).
Proof.
  intros Hn. unfold decode.
  assert (H : utf8 (name ++ ":" ++ str z) = true).
  { change (":" ++ str z) with (String colon (str z)).
    induction name as [|c r IH]; simpl in *.
    - apply plain_utf8, str_plain.
    - apply andb_true_iff in Hn. destruct Hn as [Hc Hr].
      unfold plain in Hc. apply andb_true_iff in Hc. destruct Hc as [Hc _].
      rewrite Hc. auto. }
  rewrite H. reflexivity.
Qed.

Lemma payload_splits name z :
  all plain name = true ->
  split colon (name ++ ":" ++ str z) = [name; str z].
Proof.
  intros Hn. change (":" ++ str z) with (String colon (str z)).
  rewrite (split_field _ _ Hn), (plain_split _ (str_plain z)). reflexivity.
Qed.

Lemma payload_not_empty name z : String.eqb (name ++ ":" ++ str z) "" = false.
Proof. destruct name; reflexivity. Qed.
Lemma expected_S n : rev (expected (S n)) = expected_nth n :: rev (expected n).
Proof.
  unfold expected. rewrite seq_S, map_app, rev_app_distr. reflexivity.
Qed.

Lemma invariant_scenario a1 a2 : invariant (scenario a1 a2).
Proof.
  constructor; simpl; try reflexivity; try discriminate; auto.
  exact ServerProofs.invariant_initial.
Qed.

Lemma accept_invariant s s' : invariant s -> accept s = Some s' -> invariant s'.
Proof.
  intros [Hsrv Hm Hn1 Hn2 Hc1 Hc2 Hw Hcnt Hl1 Hl2 Ho Hb] Hstep.
  assert (Hsrv' : forall r srv,
            Server.step Server.Main r (server s) = Some srv ->
            Server.invariant srv)
    by (intros r srv; apply ServerProofs.invariant_step; exact Hsrv).
  pose proof (Server.inv_spawned _ Hsrv) as Hsp.
  destruct s as [[g m h1 h2] l1 l2 w]. unfold accept in Hstep.
  unfold Server.spawned in Hsp.
  simpl in *.
  destruct m as [| | |e]; simpl in *; try discriminate.
  - specialize (Hsrv' (Returns "") _ eq_refl).
    inversion Hstep; subst; clear Hstep.
    constructor; simpl; auto; try discriminate.
  - destruct (connected l1) eqn:C1; [|discriminate].
    specialize (Hsrv' (Returns (address l1)) _ eq_refl).
    inversion Hstep; subst; clear Hstep.
    constructor; simpl; auto; try discriminate.
    destruct Hsp as [S1 S2]. destruct h1; [discriminate|].
    simpl in Hl1. destruct Hl1 as (D & U & [P|P]).
    + unfold connected in C1. rewrite P in C1. discriminate.
    + repeat split; auto. rewrite D. constructor. rewrite P. reflexivity.
  - destruct (connected l2) eqn:C2; [|discriminate].
    specialize (Hsrv' (Returns (address l2)) _ eq_refl).
    inversion Hstep; subst; clear Hstep.
    constructor; simpl; auto; try discriminate.
    destruct Hsp as [S1 S2]. destruct h2; [discriminate|].
    simpl in Hl2. destruct Hl2 as (D & U & [P|P]).
    + unfold connected in C2. rewrite P in C2. discriminate.
    + repeat split; auto. rewrite D. constructor. rewrite P. reflexivity.
Qed.

Lemma name_plain m :
  all plain (if Nat.even m then "Client1" else "Client2") = true.
Proof. destruct (Nat.even m); reflexivity. Qed.

Lemma expected_decodes m : decode (expected_nth m) = Some (expected_nth m).
Proof. unfold expected_nth. apply payload_decodes, name_plain. Qed.

Lemma expected_splits m :
  split colon (expected_nth m)
  = [if Nat.even m then "Client1" else "Client2"; str (Z.of_nat m + 1)].
Proof. unfold expected_nth. apply payload_splits, name_plain. Qed.

Lemma expected_not_empty m : String.eqb (expected_nth m) "" = false.
Proof. unfold expected_nth. apply payload_not_empty. Qed.

Lemma idle_not_gone l : idle (Client.pc (peer l)) = true -> gone l = false.
Proof. unfold gone. destruct (Client.pc (peer l)); simpl; congruence. Qed.

Lemma tid_of_not_main k : tid_of k <> Server.Main.
Proof. destruct k; discriminate. Qed.

Lemma waits_app d : waits d -> waits (d ++ ["WAIT"]).
Proof. intros H. apply Forall_app. split; [exact H | repeat constructor]. Qed.

Lemma link_step i n a p l r rest g p' g' :
  link_ok n (Some (Server.Thread a p)) l ->
  incoming p l = Some (r, rest) ->
  Server.handle_client i a r p g = Some (p', g') ->
  link_ok n (Some (Server.Thread a p'))
          (Link (peer l) (address l) (down l ++ signal_of p) rest)
  /\ (length (Server.accepted_ids (Server.out g')) + length rest
      = length (Server.accepted_ids (Server.out g)) + length (up l))%nat.
Proof.
  intros Hl Hin Hhc. unfold incoming in Hin.
  destruct p; simpl in *.
  - destruct (Server.lock g); [discriminate|].
    destruct (up l); inversion Hin; inversion Hhc; subst; simpl;
      rewrite app_nil_r; auto.
  - destruct (up l); inversion Hin; inversion Hhc; subst; simpl;
      rewrite app_nil_r; split; auto; destruct (Server.turn _ =? i); auto.
  - destruct Hl as (Hd & Hu & Hi). rewrite Hu in *.
    inversion Hin; subst. inversion Hhc; subst. simpl.
    split; auto. left. exists (down l). auto.
  - destruct Hl
      as [(ws & Hd & Hws & Hu & Hi)|[(Hd & Hu & Hp)|(Hd & Hi & m & Hn & Hu)]].
    + rewrite Hu, (idle_not_gone _ Hi) in Hin. discriminate.
    + rewrite Hu in Hin. unfold gone in Hin. rewrite Hp in Hin. discriminate.
    + rewrite Hu in Hin. inversion Hin; subst.
      rewrite expected_decodes in Hhc. unfold Server.on_data in Hhc.
      rewrite expected_not_empty, expected_splits in Hhc.
      inversion Hhc; subst. simpl. rewrite Hd, Hu. simpl.
      split; [|lia]. repeat split; auto. constructor.
  - destruct Hl as (Hd & Hu & Hi). rewrite Hu in *.
    inversion Hin; subst. inversion Hhc; subst. simpl.
    split; auto. repeat split; auto. apply waits_app; assumption.
  - destruct (up l); inversion Hin; inversion Hhc; subst; simpl;
      rewrite app_nil_r; auto.
  - contradiction.
Qed.

Lemma serve_invariant k s s' :
  invariant s -> serve k s = Some s' -> invariant s'.
Proof.
  intros [Hsrv Hm Hn1 Hn2 Hc1 Hc2 Hw Hcnt Hl1 Hl2 Ho Hb] Hstep.
  unfold serve in Hstep.
  destruct (Server.handler (tid_of k) (server s)) as [[a p]|] eqn:Hh;
    [|discriminate].
  cbv zeta in Hstep. simpl Server.pc in Hstep.
  destruct (incoming p (link_of k s)) as [[r rest]|] eqn:Ea; [|discriminate].
  destruct (Server.step (tid_of k) r (server s)) as [srv|] eqn:E;
    [|discriminate].
  inversion Hstep; subst s'; clear Hstep.
  pose proof (ServerProofs.invariant_step _ _ _ _ Hsrv E) as Hsrv'.
  destruct (ServerProofs.handler_step _ _ _ _ Hsrv (tid_of_not_main k) E)
    as (a' & p0 & p' & Hh0 & Hh' & Hhc & _ & Hother & Hmain).
  rewrite Hh in Hh0. inversion Hh0; subst a' p0; clear Hh0.
  destruct s as [srv0 l1 l2 w]. simpl in *.
  destruct k; simpl in *;
    [ rewrite Hh in Hl1;
      destruct (link_step _ _ _ _ _ _ _ _ _ _ Hl1 Ea Hhc) as [Hl Hc]
    | rewrite Hh in Hl2;
      destruct (link_step _ _ _ _ _ _ _ _ _ _ Hl2 Ea Hhc) as [Hl Hc] ];
    constructor; simpl; auto; try congruence;
    try (rewrite Hmain; exact Hb);
    try (rewrite Hh'; exact Hl);
    unfold Server.accepted_count, Server.history in *; lia.
Qed.

Lemma link_ok_shift n n' h l :
  (forall a, h <> Some (Server.Thread a Server.AtRecv)) ->
  link_ok n h l -> link_ok n' h l.
Proof.
  intros Hh. destruct h as [[a p]|]; simpl; auto.
  destruct p; auto. exfalso. exact (Hh a eq_refl).
Qed.

Lemma link_ok_up n h l :
  (forall a, h <> Some (Server.Thread a Server.AtRecv)) ->
  link_ok n h l -> up l = [].
Proof.
  intros Hh. destruct h as [[a p]|]; simpl.
  - destruct p; try tauto. exfalso. exact (Hh a eq_refl).
  - tauto.
Qed.

(** While a handler waits for a reply that is not yet on its way, every
    payload transmitted so far has been accepted, the other handler is
    outside the lock, and the parity of the count tells whose turn it is. *)
Lemma waiting_for_reply k s a :
  invariant s ->
  Server.handler (tid_of k) (server s) = Some (Server.Thread a Server.AtRecv) ->
  up (link_of k s) = [] ->
  (forall b, Server.handler (Server.other (tid_of k)) (server s)
             <> Some (Server.Thread b Server.AtRecv))
  /\ Nat.even (length (wire s))
     = match k with First => true | Second => false end.
Proof.
  intros [Hsrv Hm Hn1 Hn2 Hc1 Hc2 Hw Hcnt Hl1 Hl2 Ho Hb] Hh Hu.
  pose proof (Server.inv_excl _ Hsrv) as Hex.
  pose proof (Server.inv_turn _ Hsrv) as Ht.
  assert (Hoth : forall b, Server.handler (Server.other (tid_of k)) (server s)
             <> Some (Server.Thread b Server.AtRecv)).
  { intros b Hb'.
    destruct k; simpl in *; rewrite Hh, Hb' in Hex; discriminate. }
  split; [exact Hoth|].
  destruct k; simpl in *.
  - pose proof (Server.inv_branch1 _ Hsrv _ _ Hh) as B. simpl in B.
    rewrite (link_ok_up _ _ _ Hoth Hl2), Hu in Hcnt. simpl in Hcnt.
    replace (length (wire s)) with (Server.accepted_count (server s)) by lia.
    rewrite B in Ht. destruct (Nat.even _); [reflexivity|discriminate].
  - pose proof (Server.inv_branch2 _ Hsrv _ _ Hh) as B. simpl in B.
    rewrite (link_ok_up _ _ _ Hoth Hl1), Hu in Hcnt. simpl in Hcnt.
    replace (length (wire s)) with (Server.accepted_count (server s)) by lia.
    rewrite B in Ht. destruct (Nat.even _); [discriminate|reflexivity].
Qed.

Lemma number1_even n : Nat.even n = true ->
  number1 n = Z.of_nat n + 1 /\ number1 (S n) = number1 n + 2
  /\ number2 (S n) = number2 n.
Proof.
  intros E. unfold number1, number2. rewrite ServerProofs.even_S, E. simpl. lia.
Qed.

Lemma number2_odd n : Nat.even n = false ->
  number2 n = Z.of_nat n + 1 /\ number2 (S n) = number2 n + 2
  /\ number1 (S n) = number1 n.
Proof.
  intros E. unfold number1, number2. rewrite ServerProofs.even_S, E. simpl. lia.
Qed.

Lemma link_wakes n h l :
  link_ok n h l ->
  Client.pc (peer l) = Client.AtConnect
  \/ Client.pc (peer l) = Client.AtSleepSecond
  \/ Client.pc (peer l) = Client.AtSleepTenth ->
  link_ok n h (Link (Client.goto Client.AtRecv (peer l)) (address l)
                    (down l) (up l)).
Proof.
  intros Hl Hp. destruct h as [[a p]|]; simpl in *.
  - destruct p; simpl in *; try tauto;
      try (destruct Hl as (Hd & Hu & Hi); repeat split; auto;
           destruct Hp as [Hp|[Hp|Hp]]; rewrite Hp in Hi; auto; discriminate).
    destruct Hl as [(ws & Hd & Hws & Hu & Hi)|[(Hd & Hu & P)|(Hd & Hi & Hm)]].
    + left. exists ws. auto.
    + destruct Hp as [Hp|[Hp|Hp]]; rewrite Hp in P; discriminate.
    + right. right. auto.
  - destruct Hl as (Hd & Hu & _). auto.
Qed.

Lemma link_closed n h l : link_ok n h l -> closed h = false.
Proof.
  destruct h as [[a p]|]; simpl; auto. destruct p; simpl; auto. contradiction.
Qed.

(** A participant reading a signal: a WAIT sends it to sleep, a GO makes it
    build its next payload. *)
Lemma link_reads n h l signal rest :
  link_ok n h l ->
  Client.pc (peer l) = Client.AtRecv ->
  down l = signal :: rest ->
  ((exists a, h = Some (Server.Thread a Server.AtRecv)) -> up l = [] ->
   Client.client_name (peer l) ++ ":" ++ str (Client.current_number (peer l))
   = expected_nth n) ->
  exists p',
    Client.client (Returns signal) (peer l)
    = Some (Client.goto p' (peer l))
    /\ p' <> Client.AtConnect
    /\ link_ok n h (Link (Client.goto p' (peer l)) (address l) rest (up l)).
Proof.
  intros Hl Hp Hd Hmsg. unfold Client.client. rewrite Hp.
  assert (Hwait : forall ws, waits (signal :: ws) -> signal = "WAIT")
    by (intros ws H; inversion H; subst; reflexivity).
  assert (Hrest : forall ws, waits (signal :: ws) -> waits ws)
    by (intros ws H; inversion H; subst; assumption).
  destruct h as [[a p]|]; simpl in *.
  - destruct p; simpl in *; try tauto;
      try (destruct Hl as (Hw & Hu & Hi); rewrite Hd in Hw;
           rewrite (Hwait _ Hw); simpl; eexists; split; [reflexivity|];
           split; [discriminate|]; simpl; eauto).
    destruct Hl as [(ws & Hd' & Hws & Hu & Hi)|[(Hd' & _)|(Hd' & _)]];
      try congruence.
    rewrite Hd in Hd'. destruct ws as [|w ws]; simpl in Hd'.
    + inversion Hd'; subst. simpl.
      eexists; split; [reflexivity|]. split; [discriminate|].
      simpl. right. left.
      rewrite <- (Hmsg (ex_intro _ a eq_refl) Hu). auto.
    + inversion Hd'; subst. rewrite (Hwait _ Hws). simpl.
      eexists; split; [reflexivity|]. split; [discriminate|].
      simpl. left. exists ws. eauto.
  - destruct Hl as (Hd' & _). congruence.
Qed.

(** A participant sending: the payload is the next expected one and goes on
    its way alone. *)
Lemma link_sends n h l message c :
  link_ok n h l ->
  Client.pc (peer l) = Client.AtSend message ->
  Client.pc c = Client.AtSleepSecond ->
  message = expected_nth n
  /\ up l = []
  /\ (exists a, h = Some (Server.Thread a Server.AtRecv))
  /\ link_ok (S n) h (Link c (address l) (down l) (up l ++ [message])).
Proof.
  intros Hl Hp Hc. destruct h as [[a p]|]; simpl in *.
  - destruct p; simpl in *; try tauto;
      try (destruct Hl as (_ & _ & Hi); rewrite Hp in Hi; discriminate).
    destruct Hl as [(ws & _ & _ & _ & Hi)|[(Hd & Hu & P)|(_ & Hi & _)]];
      try (rewrite Hp in Hi; discriminate).
    rewrite Hp in P. inversion P; subst. rewrite Hu, Hd. simpl.
    repeat split; eauto. right. right. rewrite Hc. repeat split; eauto.
  - destruct Hl as (_ & _ & [P|P]); rewrite Hp in P; discriminate.
Qed.

Lemma next_payload k s a :
  invariant s ->
  Server.handler (tid_of k) (server s) = Some (Server.Thread a Server.AtRecv) ->
  up (link_of k s) = [] ->
  Client.client_name (peer (link_of k s)) ++ ":"
  ++ str (Client.current_number (peer (link_of k s)))
  = expected_nth (length (wire s))
  /\ number1 (S (length (wire s)))
     = match k with
       | First => number1 (length (wire s)) + 2
       | Second => number1 (length (wire s))
       end
  /\ number2 (S (length (wire s)))
     = match k with
       | First => number2 (length (wire s))
       | Second => number2 (length (wire s)) + 2
       end
  /\ (forall b, Server.handler (Server.other (tid_of k)) (server s)
                <> Some (Server.Thread b Server.AtRecv)).
Proof.
  intros Hi Hh Hu.
  destruct (waiting_for_reply _ _ _ Hi Hh Hu) as [Hoth Hev].
  destruct Hi as [Hsrv Hm Hn1 Hn2 Hc1 Hc2 Hw Hcnt Hl1 Hl2 Ho Hb].
  unfold expected_nth. rewrite Hev.
  destruct k; simpl in *.
  - destruct (number1_even _ Hev) as (E1 & E2 & E3).
    rewrite Hn1, Hc1, E1. repeat split; auto; congruence.
  - destruct (number2_odd _ Hev) as (E1 & E2 & E3).
    rewrite Hn2, Hc2, E1. repeat split; auto; congruence.
Qed.

Lemma invariant_link k s :
  invariant s ->
  link_ok (length (wire s)) (Server.handler (tid_of k) (server s))
          (link_of k s).
Proof. intros Hi. destruct k; [apply Hi | apply Hi]. Qed.

Lemma participate_invariant k s s' :
  invariant s -> participate k s = Some s' -> invariant s'.
Proof.
  intros Hi Hstep.
  pose proof (invariant_link k s Hi) as Hk.
  pose proof (next_payload k s) as Hnext.
  pose proof Hi as [Hsrv Hm Hn1 Hn2 Hc1 Hc2 Hw Hcnt Hl1 Hl2 Ho Hb].
  unfold participate in Hstep. cbv zeta in Hstep.
  destruct (Client.pc (peer (link_of k s))) eqn:P.
  - (* connect *)
    destruct (listening (Server.main (server s))) eqn:L; [|discriminate].
    pose proof (link_wakes _ _ _ Hk (or_introl P)) as Hl'.
    unfold Client.client in Hstep. rewrite P in Hstep.
    destruct s as [srv l1 l2 w]. destruct k; simpl in *.
    + inversion Hstep; subst; clear Hstep.
      constructor; simpl; auto.
      intros HB. rewrite HB in L. discriminate.
    + destruct (connected l1) eqn:C1; [|discriminate].
      inversion Hstep; subst; clear Hstep.
      constructor; simpl; auto.
      intros HB. rewrite HB in L. discriminate.
  - (* recv *)
    destruct (down (link_of k s)) as [|signal rest] eqn:D.
    + rewrite (link_closed _ _ _ Hk) in Hstep. discriminate.
    + destruct (link_reads _ _ _ _ _ Hk P D) as (p' & Hc & Hp' & Hl').
      { intros [a Ha] Hu. apply (Hnext a Hi Ha Hu). }
      rewrite Hc in Hstep.
      assert (Hcon : connected (link_of k s) = true)
        by (unfold connected; rewrite P; reflexivity).
      assert (Hcon' : forall x y z,
                connected (Link (Client.goto p' (peer (link_of k s))) x y z)
                = true)
        by (intros; unfold connected; simpl; destruct p'; congruence).
      destruct s as [srv l1 l2 w]. destruct k; simpl in *;
        inversion Hstep; subst; clear Hstep;
        constructor; simpl; auto.
      intros HB. rewrite (Hb HB) in Hcon. discriminate.
  - (* send *)
    unfold Client.client in Hstep. rewrite P in Hstep.
    cbv beta iota in Hstep.
    match type of Hstep with
    | Some (set_link _ (Link ?c _ _ _) _) = _ =>
        destruct (link_sends _ _ _ _ c Hk P eq_refl)
          as (Hmsg & Hu & [a Ha] & Hl')
    end.
    destruct (Hnext a Hi Ha Hu) as (_ & N1 & N2 & Hoth).
    assert (Hcon : connected (link_of k s) = true)
      by (unfold connected; rewrite P; reflexivity).
    destruct s as [srv l1 l2 w]. destruct k; simpl in *;
      inversion Hstep; subst; clear Hstep;
      constructor; simpl; auto;
      try congruence;
      try (rewrite expected_S; congruence);
      try (rewrite Hu in *; simpl; lia);
      try (eapply link_ok_shift; eassumption);
      try (intros HB; rewrite (Hb HB) in Hcon; discriminate).
    all: try (change (rev (map expected_nth (seq 1 (length w)))
                      ++ [expected_nth 0])%list
              with (rev (expected (S (length w))));
              rewrite expected_S; congruence).
    all: rewrite Hu in *; simpl in *; lia.
  - (* sleep *)
    pose proof (link_wakes _ _ _ Hk (or_intror (or_introl P))) as Hl'.
    unfold Client.client in Hstep. rewrite P in Hstep.
    assert (Hcon : connected (link_of k s) = true)
      by (unfold connected; rewrite P; reflexivity).
    destruct s as [srv l1 l2 w]. destruct k; simpl in *;
      inversion Hstep; subst; clear Hstep;
      constructor; simpl; auto;
      try (intros HB; rewrite (Hb HB) in Hcon; discriminate).
  - pose proof (link_wakes _ _ _ Hk (or_intror (or_intror P))) as Hl'.
    unfold Client.client in Hstep. rewrite P in Hstep.
    assert (Hcon : connected (link_of k s) = true)
      by (unfold connected; rewrite P; reflexivity).
    destruct s as [srv l1 l2 w]. destruct k; simpl in *;
      inversion Hstep; subst; clear Hstep;
      constructor; simpl; auto;
      try (intros HB; rewrite (Hb HB) in Hcon; discriminate).
  - unfold Client.client in Hstep. rewrite P in Hstep. discriminate.
Qed.

Lemma system_step_invariant t s s' :
  invariant s -> step t s = Some s' -> invariant s'.
Proof.
  destruct t as [[| |]|k]; simpl;
    eauto using accept_invariant, serve_invariant, participate_invariant.
Qed.

Lemma system_run_invariant sched : forall s s',
  invariant s -> run sched s = Some s' -> invariant s'.
Proof.
  induction sched as [|t rest IH]; simpl; intros s s' Hi Hrun.
  - inversion Hrun; subst; exact Hi.
  - destruct (step t s) as [s1|] eqn:E; [|discriminate].
    exact (IH _ _ (system_step_invariant _ _ _ Hi E) Hrun).
Qed.

(** *** Progress *)

Lemma leads_refl s : leads s s.
Proof. exists []. reflexivity. Qed.

Lemma system_run_app sched1 : forall sched2 s,
  run (sched1 ++ sched2) s
  = match run sched1 s with
    | Some s1 => run sched2 s1
    | None => None
    end.
Proof.
  induction sched1 as [|t rest IH]; simpl; intros sched2 s; [reflexivity|].
  destruct (step t s); [apply IH | reflexivity].
Qed.

Lemma leads_trans s1 s2 s3 : leads s1 s2 -> leads s2 s3 -> leads s1 s3.
Proof.
  intros [a Ha] [b Hb]. exists (a ++ b)%list.
  rewrite system_run_app, Ha. exact Hb.
Qed.

Lemma leads_step t s s' : step t s = Some s' -> leads s s'.
Proof. intros H. exists [t]. simpl. rewrite H. reflexivity. Qed.

Lemma leads_invariant s s' : invariant s -> leads s s' -> invariant s'.
Proof. intros Hi [sched H]. exact (system_run_invariant _ _ _ Hi H). Qed.

Lemma frame_refl s : frame s s.
Proof. constructor; reflexivity. Qed.

Lemma frame_trans s1 s2 s3 : frame s1 s2 -> frame s2 s3 -> frame s1 s3.
Proof. intros [] []. constructor; congruence. Qed.

Lemma step_serve k s : step (Srv (tid_of k)) s = serve k s.
Proof. destruct k; reflexivity. Qed.

(** A handler that is not reading moves whenever it is scheduled, unless it
    waits for the lock. *)
Lemma serve_moves k s p :
  invariant s ->
  pc_at k s = Some p ->
  p <> Server.AtRecv ->
  (p = Server.AtLock -> Server.locked (server s) = false) ->
  exists s',
    serve k s = Some s'
    /\ pc_at k s'
       = Some (advance (Server.client_id_of (tid_of k))
                       (Server.turn_of (server s)) p)
    /\ pc_at (flip k) s' = pc_at (flip k) s
    /\ frame s s'.
Proof.
  intros Hi Hp Hnr Hlk.
  pose proof (invariant_link k s Hi) as Hl.
  unfold pc_at in Hp.
  destruct (Server.handler (tid_of k) (server s)) as [[a q]|] eqn:Hh;
    [|discriminate].
  simpl in Hp. inversion Hp; subst q; clear Hp.
  unfold serve. rewrite Hh. cbv zeta. simpl Server.pc.
  assert (Hin : incoming p (link_of k s) = Some (Returns "", up (link_of k s)))
    by (unfold incoming; destruct p; try reflexivity; congruence).
  rewrite Hin. rewrite (ServerProofs.step_handler _ _ _ _ _ Hh).
  assert (Hhc : exists g',
            Server.handle_client (Server.client_id_of (tid_of k)) a
              (Returns "") p (Server.globals_of (server s))
            = Some (advance (Server.client_id_of (tid_of k))
                            (Server.turn_of (server s)) p, g')
            /\ Server.turn g' = Server.turn_of (server s)).
  { destruct p; simpl in *; try contradiction; try congruence; eauto.
    unfold Server.locked in Hlk. rewrite (Hlk eq_refl). eauto. }
  destruct Hhc as (g' & Hhc & Hturn). rewrite Hhc.
  eexists. split; [reflexivity|].
  destruct s as [srv l1 l2 w]. unfold pc_at.
  destruct k; simpl in *; repeat split; auto.
Qed.

Lemma flip_flip k : flip (flip k) = k.
Proof. destruct k; reflexivity. Qed.

Lemma id_of_flip k :
  Server.client_id_of (tid_of (flip k)) <> Server.client_id_of (tid_of k).
Proof. destruct k; discriminate. Qed.

Lemma pc_branch k s p :
  invariant s -> pc_at k s = Some p ->
  Server.branch_ok (Server.client_id_of (tid_of k)) p
                   (Server.turn_of (server s))
  /\ forall r, p <> Server.Finished r.
Proof.
  intros Hi Hp. pose proof (invariant_link k s Hi) as Hl.
  unfold pc_at in Hp.
  destruct (Server.handler (tid_of k) (server s)) as [[a q]|] eqn:Hh;
    [|discriminate].
  simpl in Hp. inversion Hp; subst q; clear Hp. split.
  - exact (ServerProofs.branch_of_invariant _ _ _ _ (inv_server _ Hi) Hh).
  - intros r ->. simpl in Hl. exact Hl.
Qed.

Lemma lock_free k s p q :
  invariant s -> pc_at k s = Some p -> pc_at (flip k) s = Some q ->
  Server.inside p = false -> Server.inside q = false ->
  Server.locked (server s) = false.
Proof.
  intros Hi Hp Hq Ip Iq. rewrite (Server.inv_lock _ (inv_server _ Hi)).
  unfold pc_at in *.
  destruct k; simpl in *;
    destruct (Server.handler1 (server s)) as [[a1 p1]|];
    destruct (Server.handler2 (server s)) as [[a2 p2]|];
    try discriminate; simpl in *;
    inversion Hp; inversion Hq; subst; rewrite Ip, Iq; reflexivity.
Qed.

(** What the chains of steps below keep track of: the turn belongs to
    connection [k], the handler of [k] stands at [p] and the other at [q]. *)
Lemma serve_chain k s p :
  invariant s ->
  pc_at k s = Some p ->
  p <> Server.AtRecv ->
  (p = Server.AtLock -> Server.locked (server s) = false) ->
  exists s',
    leads s s' /\ invariant s' /\ frame s s'
    /\ pc_at k s'
       = Some (advance (Server.client_id_of (tid_of k))
                       (Server.turn_of (server s)) p)
    /\ pc_at (flip k) s' = pc_at (flip k) s.
Proof.
  intros Hi Hp Hnr Hlk.
  destruct (serve_moves k s p Hi Hp Hnr Hlk) as (s' & Hs & Hp' & Hq' & Hf).
  exists s'. rewrite <- step_serve in Hs.
  split; [exact (leads_step _ _ _ Hs)|].
  split; [exact (system_step_invariant _ _ _ Hi Hs)|].
  auto.
Qed.

(** The handler whose turn it is not leaves the lock. *)
Lemma settle_other k s q :
  invariant s ->
  Server.turn_of (server s) = Server.client_id_of (tid_of k) ->
  pc_at (flip k) s = Some q ->
  exists s' q',
    leads s s' /\ invariant s' /\ frame s s'
    /\ pc_at k s' = pc_at k s
    /\ pc_at (flip k) s' = Some q' /\ Server.inside q' = false.
Proof.
  intros Hi Ht Hq.
  destruct (pc_branch _ _ _ Hi Hq) as [B F].
  pose proof (id_of_flip k) as Hne.
  assert (Step : forall s0 q0, invariant s0 ->
            Server.turn_of (server s0) = Server.client_id_of (tid_of k) ->
            pc_at (flip k) s0 = Some q0 -> q0 = Server.AtSendWait ->
            exists s1, leads s0 s1 /\ invariant s1 /\ frame s0 s1
              /\ pc_at k s1 = pc_at k s0
              /\ pc_at (flip k) s1 = Some Server.AtSleep).
  { intros s0 q0 Hi0 Ht0 Hq0 ->.
    destruct (serve_chain (flip k) s0 _ Hi0 Hq0) as (s1 & L & I & Fr & P & Q);
      try discriminate.
    rewrite flip_flip in Q. exists s1. simpl in P. auto 10. }
  destruct q; simpl in B.
  - exists s, Server.AtLock. auto 10 using leads_refl, frame_refl.
  - destruct (serve_chain (flip k) s _ Hi Hq) as (s1 & L & I & Fr & P & Q);
      try discriminate.
    rewrite flip_flip in Q. simpl in P. rewrite Ht in P.
    destruct (Z.eqb_spec (Server.client_id_of (tid_of k))
                (Server.client_id_of (tid_of (flip k)))) as [E|_];
      [congruence|].
    assert (Ht1 : Server.turn_of (server s1) = Server.client_id_of (tid_of k))
      by (rewrite (same_turn _ _ Fr); exact Ht).
    destruct (Step s1 _ I Ht1 P eq_refl) as (s2 & L2 & I2 & Fr2 & P2 & Q2).
    exists s2, Server.AtSleep.
    assert (pc_at k s2 = pc_at k s) by congruence.
    eauto 10 using leads_trans, frame_trans.
  - congruence.
  - congruence.
  - destruct (Step s _ Hi Ht Hq eq_refl) as (s2 & L2 & I2 & Fr2 & P2 & Q2).
    exists s2, Server.AtSleep. auto 10.
  - exists s, Server.AtSleep. auto 10 using leads_refl, frame_refl.
  - exfalso. exact (F r eq_refl).
Qed.

(** The handler whose turn it is reaches the read of the reply once the
    other handler is outside the lock. *)
Lemma reach_recv k q n : forall s p,
  (distance p <= n)%nat ->
  invariant s ->
  Server.turn_of (server s) = Server.client_id_of (tid_of k) ->
  pc_at k s = Some p ->
  pc_at (flip k) s = Some q ->
  Server.inside q = false ->
  exists s',
    leads s s' /\ invariant s' /\ frame s s'
    /\ pc_at k s' = Some Server.AtRecv.
Proof.
  induction n as [|n IH]; intros s p Hd Hi Ht Hp Hq Iq;
    destruct (pc_branch _ _ _ Hi Hp) as [B F].
  - destruct p; simpl in Hd, B; try lia; try congruence.
    exists s. auto 10 using leads_refl, frame_refl.
  - assert (Hr : p = Server.AtRecv \/ p <> Server.AtRecv)
      by (destruct p; auto; right; discriminate).
    destruct Hr as [->|Hnr].
    { exists s. auto 10 using leads_refl, frame_refl. }
    destruct (serve_chain k s p Hi Hp Hnr) as (s1 & L & I & Fr & P & Q).
    { intros ->. exact (lock_free _ _ _ _ Hi Hp Hq eq_refl Iq). }
    assert (Ht1 : Server.turn_of (server s1) = Server.client_id_of (tid_of k))
      by (rewrite (same_turn _ _ Fr); exact Ht).
    rewrite Ht in P.
    assert (Hd1 : (distance (advance (Server.client_id_of (tid_of k))
                     (Server.client_id_of (tid_of k)) p) <= n)%nat).
    { destruct p; simpl in *; try rewrite Z.eqb_refl; simpl; try lia;
        try congruence. }
    rewrite Hq in Q.
    destruct (IH s1 _ Hd1 I Ht1 P Q Iq) as (s2 & L2 & I2 & Fr2 & P2).
    exists s2. eauto 10 using leads_trans, frame_trans.
Qed.

Lemma set_link_facts k l s :
  link_of k (set_link k l s) = l
  /\ link_of (flip k) (set_link k l s) = link_of (flip k) s
  /\ server (set_link k l s) = server s
  /\ wire (set_link k l s) = wire s.
Proof. destruct k, s; simpl; auto. Qed.

(** A participant about to send sends. *)
Lemma sends k s message :
  Client.pc (peer (link_of k s)) = Client.AtSend message ->
  exists s', step (Cli k) s = Some s'
             /\ length (wire s') = S (length (wire s)).
Proof.
  intros P. simpl. unfold participate. cbv zeta. rewrite P.
  unfold Client.client. rewrite P. cbv beta iota.
  eexists. split; [reflexivity|].
  destruct (set_link_facts k
    (Link (Client.State (Client.client_name (peer (link_of k s)))
             (Client.current_number (peer (link_of k s)) + 2)
             Client.AtSleepSecond
             (message :: Client.sent (peer (link_of k s)))
             ((Client.client_name (peer (link_of k s)) ++ " sent: "
               ++ str (Client.current_number (peer (link_of k s))))
              :: Client.printed (peer (link_of k s))))
          (address (link_of k s)) (down (link_of k s))
          (up (link_of k s) ++ [message]))
    (State (server s) (link1 s) (link2 s) (message :: wire s)))
    as (_ & _ & _ & W).
  rewrite W. reflexivity.
Qed.

(** A participant that is awake reads the signal in front of it. *)
Lemma reads k s signal rest :
  Client.pc (peer (link_of k s)) = Client.AtRecv ->
  down (link_of k s) = signal :: rest ->
  signal = "GO" \/ signal = "WAIT" ->
  exists s',
    step (Cli k) s = Some s'
    /\ server s' = server s /\ wire s' = wire s
    /\ down (link_of k s') = rest
    /\ up (link_of k s') = up (link_of k s)
    /\ idle (Client.pc (peer (link_of k s')))
       = (if String.eqb signal "GO" then false else true)
    /\ (signal = "GO" -> exists m,
          Client.pc (peer (link_of k s')) = Client.AtSend m).
Proof.
  intros P D Hs. simpl. unfold participate. cbv zeta. rewrite P, D.
  unfold Client.client. rewrite P.
  destruct Hs as [-> | ->]; simpl; eexists; (split; [reflexivity|]);
    match goal with
    | |- context [set_link k ?l ?s0] =>
        destruct (set_link_facts k l s0) as (L & _ & S & W);
        rewrite L, S, W
    end; simpl; repeat split; eauto; discriminate.
Qed.

(** A sleeping participant wakes. *)
Lemma wakes k s :
  Client.pc (peer (link_of k s)) = Client.AtSleepSecond
  \/ Client.pc (peer (link_of k s)) = Client.AtSleepTenth ->
  exists s',
    step (Cli k) s = Some s'
    /\ server s' = server s /\ wire s' = wire s
    /\ down (link_of k s') = down (link_of k s)
    /\ up (link_of k s') = up (link_of k s)
    /\ Client.pc (peer (link_of k s')) = Client.AtRecv.
Proof.
  intros P. simpl. unfold participate. cbv zeta.
  unfold Client.client.
  destruct P as [P|P]; rewrite P; eexists; (split; [reflexivity|]);
    match goal with
    | |- context [set_link k ?l ?s0] =>
        destruct (set_link_facts k l s0) as (L & _ & S & W);
        rewrite L, S, W
    end; simpl; auto.
Qed.

(** A GO behind any number of WAITs is read and answered. *)
Lemma answered k ws : forall s,
  invariant s ->
  down (link_of k s) = (ws ++ ["GO"])%list ->
  waits ws ->
  idle (Client.pc (peer (link_of k s))) = true ->
  exists s', leads s s' /\ length (wire s') = S (length (wire s)).
Proof.
  assert (Awake : forall s,
            idle (Client.pc (peer (link_of k s))) = true ->
            exists s1, leads s s1 /\ server s1 = server s
              /\ wire s1 = wire s
              /\ down (link_of k s1) = down (link_of k s)
              /\ Client.pc (peer (link_of k s1)) = Client.AtRecv).
  { intros s Hi.
    destruct (Client.pc (peer (link_of k s))) eqn:P; try discriminate.
    - exists s. auto using leads_refl.
    - destruct (wakes k s (or_introl P)) as (s1 & St & S & W & D & U & P1).
      exists s1. eauto 10 using leads_step.
    - destruct (wakes k s (or_intror P)) as (s1 & St & S & W & D & U & P1).
      exists s1. eauto 10 using leads_step. }
  induction ws as [|w ws IH]; intros s Hi Hd Hw Hidle;
    destruct (Awake s Hidle) as (s1 & L1 & S1 & W1 & D1 & P1);
    rewrite Hd in D1; simpl in D1.
  - destruct (reads k s1 _ _ P1 D1 (or_introl eq_refl))
      as (s2 & St & S2 & W2 & D2 & U2 & _ & Hsend).
    destruct (Hsend eq_refl) as [m Pm].
    destruct (sends k s2 m Pm) as (s3 & St3 & W3).
    exists s3. split; [|congruence].
    eauto using leads_trans, leads_step.
  - inversion Hw as [|x xs Hx Hxs]; subst.
    destruct (reads k s1 _ _ P1 D1 (or_intror eq_refl))
      as (s2 & St & S2 & W2 & D2 & U2 & I2 & _).
    assert (L2 : leads s s2) by eauto using leads_trans, leads_step.
    destruct (IH s2 (leads_invariant _ _ Hi L2) D2 Hxs I2) as (s3 & L3 & W3).
    exists s3. split; [eauto using leads_trans | congruence].
Qed.

(** Once a handler waits for the reply to its GO, the participant sends
    the next payload. *)
Lemma client_sends k s :
  invariant s ->
  pc_at k s = Some Server.AtRecv ->
  up (link_of k s) = [] ->
  exists s', leads s s' /\ length (wire s') = S (length (wire s)).
Proof.
  intros Hi Hp Hu. pose proof (invariant_link k s Hi) as Hl.
  unfold pc_at in Hp.
  destruct (Server.handler (tid_of k) (server s)) as [[a p]|]; [|discriminate].
  simpl in Hp. inversion Hp; subst p. simpl in Hl.
  destruct Hl
    as [(ws & Hd & Hws & _ & Hidle)|[(_ & _ & P)|(_ & _ & m & _ & U)]].
  - exact (answered k ws s Hi Hd Hws Hidle).
  - destruct (sends k s _ P) as (s' & St & W).
    exists s'. eauto using leads_step.
  - congruence.
Qed.

(** A payload on its way is read by the handler it is meant for. *)
Lemma drain_one k s :
  invariant s ->
  up (link_of k s) <> [] ->
  exists s',
    step (Srv (tid_of k)) s = Some s'
    /\ wire s' = wire s
    /\ Server.main (server s') = Server.main (server s)
    /\ up (link_of k s') = []
    /\ up (link_of (flip k) s') = up (link_of (flip k) s).
Proof.
  intros Hi Hu. pose proof (invariant_link k s Hi) as Hl.
  rewrite step_serve. unfold serve.
  destruct (Server.handler (tid_of k) (server s)) as [[a p]|] eqn:Hh;
    simpl in Hl; [|destruct Hl as (_ & U & _); contradiction].
  assert (Hp : p = Server.AtRecv)
    by (destruct p; try reflexivity; try contradiction;
        destruct Hl as (_ & U & _); contradiction).
  subst p.
  destruct Hl as [(ws & _ & _ & U & _)|[(_ & U & _)|(_ & _ & m & _ & U)]];
    try contradiction.
  cbv zeta. simpl Server.pc. unfold incoming. rewrite U.
  rewrite (ServerProofs.step_handler _ _ _ _ _ Hh).
  assert (Hhc : exists p' g',
            Server.handle_client (Server.client_id_of (tid_of k)) a
              (Returns (expected_nth m)) Server.AtRecv
              (Server.globals_of (server s)) = Some (p', g'))
    by (simpl; destruct (decode (expected_nth m));
        [destruct (Server.on_data _ _ _ _) | destruct (Server.unwind _ _ _ _)];
        eauto).
  destruct Hhc as (p' & g' & Hhc). rewrite Hhc.
  destruct (ServerProofs.handler_of_set (tid_of k) (Server.Thread a p') g'
              (server s) (tid_of_not_main k)) as (_ & _ & M & _).
  eexists. split; [reflexivity|].
  match goal with
  | |- context [set_link k ?l ?s0] =>
      destruct (set_link_facts k l s0) as (L & F & S & W);
      rewrite L, F, S, W
  end.
  destruct s; destruct k; simpl in *; auto.
Qed.

Lemma drain s :
  invariant s ->
  exists s',
    leads s s' /\ wire s' = wire s
    /\ Server.main (server s') = Server.main (server s)
    /\ up (link1 s') = [] /\ up (link2 s') = [].
Proof.
  intros Hi.
  assert (H1 : exists s1, leads s s1 /\ wire s1 = wire s
            /\ Server.main (server s1) = Server.main (server s)
            /\ up (link1 s1) = []).
  { destruct (up (link1 s)) eqn:U.
    - exists s. auto 10 using leads_refl.
    - destruct (drain_one First s Hi) as (s1 & St & W & M & U1 & _).
      { simpl. congruence. }
      exists s1. eauto 10 using leads_step. }
  destruct H1 as (s1 & L1 & W1 & M1 & U1).
  destruct (up (link2 s1)) eqn:U.
  - exists s1. auto.
  - destruct (drain_one Second s1 (leads_invariant _ _ Hi L1))
      as (s2 & St & W & M & U2 & U2').
    { simpl. congruence. }
    pose proof (leads_step _ _ _ St) as L2.
    simpl in *. exists s2.
    split; [eauto using leads_trans|].
    repeat split; congruence.
Qed.

Lemma started_connected k s p :
  invariant s -> pc_at k s = Some p -> connected (link_of k s) = true.
Proof.
  intros Hi Hp. pose proof (invariant_link k s Hi) as Hl.
  unfold pc_at in Hp. unfold connected.
  destruct (Server.handler (tid_of k) (server s)) as [[a q]|]; [|discriminate].
  simpl in Hl.
  destruct q; try contradiction;
    try (destruct Hl as (_ & _ & I);
         destruct (Client.pc (peer (link_of k s))); try discriminate;
         reflexivity).
  destruct Hl as [(ws & _ & _ & _ & I)|[(_ & _ & P)|(_ & I & _)]];
    try (rewrite P; reflexivity);
    destruct (Client.pc (peer (link_of k s))); try discriminate; reflexivity.
Qed.

Lemma connects k s :
  listening (Server.main (server s)) = true ->
  match k with First => True | Second => connected (link1 s) = true end ->
  exists s',
    leads s s' /\ server s' = server s /\ wire s' = wire s
    /\ connected (link_of k s') = true
    /\ link_of (flip k) s' = link_of (flip k) s.
Proof.
  intros Hl Ho.
  destruct (connected (link_of k s)) eqn:C.
  { exists s. auto using leads_refl. }
  assert (P : Client.pc (peer (link_of k s)) = Client.AtConnect)
    by (unfold connected in C;
        destruct (Client.pc (peer (link_of k s))); congruence).
  assert (St : exists s', step (Cli k) s = Some s'
            /\ server s' = server s /\ wire s' = wire s
            /\ connected (link_of k s') = true
            /\ link_of (flip k) s' = link_of (flip k) s).
  { simpl. unfold participate. cbv zeta. rewrite P, Hl.
    unfold Client.client. rewrite P.
    destruct k; [|rewrite Ho]; simpl;
      (eexists; split; [reflexivity|]); destruct s; simpl; auto. }
  destruct St as (s' & St & H). exists s'. split; [|exact H].
  exact (leads_step _ _ _ St).
Qed.

Lemma boot s :
  invariant s ->
  exists s',
    leads s s' /\ wire s' = wire s
    /\ Server.main (server s') = Server.Exited None.
Proof.
  intros Hi.
  assert (A2 : forall s0, invariant s0 ->
            Server.main (server s0) = Server.AtAccept2 ->
            exists s', leads s0 s' /\ wire s' = wire s0
              /\ Server.main (server s') = Server.Exited None).
  { intros s0 Hi0 M.
    pose proof (Server.inv_spawned _ (inv_server _ Hi0)) as Sp.
    unfold Server.spawned in Sp. rewrite M in Sp. destruct Sp as [Sp _].
    assert (C1 : connected (link1 s0) = true).
    { destruct (Server.handler1 (server s0)) as [[a p]|] eqn:Hh;
        [|discriminate].
      apply (started_connected First s0 p Hi0). unfold pc_at. simpl.
      rewrite Hh. reflexivity. }
    destruct (connects Second s0) as (s1 & L1 & S1 & W1 & C2 & _);
      [rewrite M; reflexivity | exact C1 |].
    simpl in C2.
    assert (St : exists s2, step (Srv Server.Main) s1 = Some s2
              /\ wire s2 = wire s1
              /\ Server.main (server s2) = Server.Exited None).
    { simpl. unfold accept. rewrite S1, M, C2.
      unfold Server.step, Server.server. rewrite M.
      eexists. split; [reflexivity|]. simpl. auto. }
    destruct St as (s2 & St & W2 & M2). exists s2.
    split; [eauto using leads_trans, leads_step|]. split; congruence. }
  assert (A1 : forall s0, invariant s0 ->
            Server.main (server s0) = Server.AtAccept1 ->
            exists s', leads s0 s' /\ wire s' = wire s0
              /\ Server.main (server s') = Server.Exited None).
  { intros s0 Hi0 M.
    destruct (connects First s0) as (s1 & L1 & S1 & W1 & C1 & _);
      [rewrite M; reflexivity | exact I |].
    simpl in C1.
    assert (St : exists s2, step (Srv Server.Main) s1 = Some s2
              /\ wire s2 = wire s1
              /\ Server.main (server s2) = Server.AtAccept2).
    { simpl. unfold accept. rewrite S1, M, C1.
      unfold Server.step, Server.server. rewrite M.
      eexists. split; [reflexivity|]. simpl. auto. }
    destruct St as (s2 & St & W2 & M2).
    assert (L2 : leads s0 s2) by eauto using leads_trans, leads_step.
    destruct (A2 s2 (leads_invariant _ _ Hi0 L2) M2) as (s3 & L3 & W3 & M3).
    exists s3. split; [eauto using leads_trans|]. split; congruence. }
  destruct (Server.main (server s)) as [| | |[e|]] eqn:M.
  - assert (St : exists s1, step (Srv Server.Main) s = Some s1
              /\ wire s1 = wire s
              /\ Server.main (server s1) = Server.AtAccept1).
    { simpl. unfold accept. rewrite M.
      unfold Server.step, Server.server. rewrite M.
      eexists. split; [reflexivity|]. simpl. auto. }
    destruct St as (s1 & St & W1 & M1).
    assert (L1 : leads s s1) by eauto using leads_step.
    destruct (A1 s1 (leads_invariant _ _ Hi L1) M1) as (s3 & L3 & W3 & M3).
    exists s3. split; [eauto using leads_trans|]. split; congruence.
  - exact (A1 s Hi M).
  - exact (A2 s Hi M).
  - exfalso. exact (inv_main _ Hi e M).
  - exists s. auto using leads_refl.
Qed.

(** From every state the scenario reaches, the next payload can be
    transmitted. *)
Lemma next_is_transmitted s :
  invariant s ->
  exists s', leads s s' /\ length (wire s') = S (length (wire s)).
Proof.
  intros Hi.
  destruct (boot s Hi) as (s0 & L0 & W0 & M0).
  pose proof (leads_invariant _ _ Hi L0) as Hi0.
  destruct (drain s0 Hi0) as (s1 & L1 & W1 & M1 & U1 & U2).
  pose proof (leads_invariant _ _ Hi0 L1) as Hi1.
  rewrite M0 in M1.
  pose proof (Server.inv_spawned _ (inv_server _ Hi1)) as Sp.
  unfold Server.spawned in Sp. rewrite M1 in Sp. destruct Sp as [Sp1 Sp2].
  pose proof (Server.inv_turn _ (inv_server _ Hi1)) as Ht.
  assert (Hk : exists k, Server.turn_of (server s1)
                         = Server.client_id_of (tid_of k)).
  { destruct (Nat.even _); [exists First | exists Second]; exact Ht. }
  destruct Hk as [k Hk].
  assert (Hpc : forall j, exists p, pc_at j s1 = Some p).
  { intros j. unfold pc_at.
    destruct j; simpl;
      [destruct (Server.handler1 (server s1))
      |destruct (Server.handler2 (server s1))];
      try discriminate; eauto. }
  destruct (Hpc (flip k)) as [q Hq].
  destruct (settle_other k s1 q Hi1 Hk Hq)
    as (s2 & q' & L2 & Hi2 & Fr2 & P2 & Q2 & Iq).
  destruct (Hpc k) as [p Hp]. rewrite Hp in P2.
  assert (Hk2 : Server.turn_of (server s2) = Server.client_id_of (tid_of k))
    by (rewrite (same_turn _ _ Fr2); exact Hk).
  destruct (reach_recv k q' _ s2 p (le_n _) Hi2 Hk2 P2 Q2 Iq)
    as (s3 & L3 & Hi3 & Fr3 & P3).
  assert (U3 : up (link_of k s3) = []).
  { destruct k; simpl;
      [rewrite (same_up1 _ _ Fr3), (same_up1 _ _ Fr2)
      |rewrite (same_up2 _ _ Fr3), (same_up2 _ _ Fr2)]; assumption. }
  destruct (client_sends k s3 Hi3 P3 U3) as (s4 & L4 & W4).
  exists s4. split; [eauto using leads_trans|].
  rewrite W4, (same_wire _ _ Fr3), (same_wire _ _ Fr2). congruence.
Qed.

(** *** The end-to-end run *)

Lemma run_leads sched s s' : run sched s = Some s' -> leads s s'.
Proof. intros H. exists sched. exact H. Qed.



(** C8, as the specification words it, fails: with the second participant
    still to connect, the first one has been told GO and its payload has
    been transmitted and accepted. *)
Lemma lone_participant_is_served :
  ~ (forall sched s,
       run sched (scenario address1 address2) = Some s ->
       Client.pc (peer (link2 s)) = Client.AtConnect ->
       transmitted s = []
       /\ Server.accepted_count (server s) = 0%nat
       /\ Server.signals_to 1 (Server.history (server s)) = []).
Proof.
  intros H.
  destruct (H first_exchange after_first_exchange eq_refl eq_refl)
    as (Ht & _).
  discriminate Ht.
Qed.

(** C9.  A client whose read returns text that is neither GO nor WAIT, the
    empty text of a closed connection in particular, takes no branch: its
    step leaves its whole state as it was, program point included, so that
    nothing is sent, no sleep is entered and the thread does not end,
    however often the read returns.  Joined to a server whose handler has
    ended, the client is scheduled for ever without the state changing. *)
Theorem unknown_signal_spins (c : Client.state) b response n k s :
  Client.pc c = Client.AtRecv ->
  decode b = Some response ->
  response <> "GO" ->
  response <> "WAIT" ->
  Client.pc (peer (link_of k s)) = Client.AtRecv ->
  down (link_of k s) = [] ->
  closed (Server.handler (tid_of k) (server s)) = true ->
  Client.client (Returns b) c = Some c
  /\ Client.run (repeat (Returns b) n) c = Some c
  /\ Client.run (repeat (Returns "") n) c = Some c
  /\ step (Cli k) s = Some s
  /\ run (repeat (Cli k) n) s = Some s.
Proof.
  intros Hc Hd Hgo Hwait Hp Hdown Hclosed.
  assert (Spin : forall b' r', decode b' = Some r' -> r' <> "GO" ->
            r' <> "WAIT" -> forall c', Client.pc c' = Client.AtRecv ->
            Client.client (Returns b') c' = Some c').
  { intros b' r' Hd' G W c' Hc'. unfold Client.client. rewrite Hc', Hd'.
    destruct (String.eqb_spec r' "GO"); [contradiction|].
    destruct (String.eqb_spec r' "WAIT"); [contradiction|]. reflexivity. }
  assert (Loop : forall b', Client.client (Returns b') c = Some c ->
            forall m, Client.run (repeat (Returns b') m) c = Some c).
  { intros b' Hb m. induction m as [|m IH]; simpl; [reflexivity|].
    rewrite Hb. exact IH. }
  assert (Hstep : step (Cli k) s = Some s).
  { simpl. unfold participate. cbv zeta. rewrite Hp, Hdown, Hclosed.
    rewrite (Spin "" "" eq_refl) by (discriminate || exact Hp).
    destruct s as [srv l1 l2 w].
    destruct k; simpl in *;
      [destruct l1 | destruct l2]; simpl in *; subst; reflexivity. }
  split; [exact (Spin b response Hd Hgo Hwait c Hc)|].
  split; [exact (Loop b (Spin b response Hd Hgo Hwait c Hc) n)|].
  split; [apply Loop; apply (Spin "" "" eq_refl); (discriminate || exact Hc)|].
  split; [exact Hstep|].
  induction n as [|n IH]; [reflexivity|].
  change (run (repeat (Cli k) (S n)) s)
    with (match step (Cli k) s with
          | Some s' => run (repeat (Cli k) n) s'
          | None => None
          end).
  rewrite Hstep. exact IH.
Qed.

Lemma unknown_signal_spins_witness :
  Client.client (Returns "") (peer (link1 after_bad_name))
  = Some (peer (link1 after_bad_name))
  /\ Client.run (repeat (Returns "") 3) (peer (link1 after_bad_name))
     = Some (peer (link1 after_bad_name))
  /\ Client.run (repeat (Returns "") 3) (peer (link1 after_bad_name))
     = Some (peer (link1 after_bad_name))
  /\ step (Cli First) after_bad_name = Some after_bad_name
  /\ run (repeat (Cli First) 3) after_bad_name = Some after_bad_name.
Proof.
  refine (unknown_signal_spins (peer (link1 after_bad_name)) "" "" 3 First
            after_bad_name eq_refl eq_refl _ _ eq_refl eq_refl eq_refl);
    discriminate.
Defined.

End SystemProofs.

(** * Further properties of [server.py] *)
Module ServerExtras.
Import Py Server ServerProofs.

#[local] Arguments str : simpl never.
#[local] Arguments String.append : simpl never.

Lemma handler_inside_locked s t a p :
  invariant s -> handler t s = Some (Thread a p) -> inside p = true ->
  locked s = true
  /\ forall b q, handler (other t) s = Some (Thread b q) -> inside q = false.
Proof.
  intros Hi Hh Hp. pose proof (inv_excl _ Hi) as He.
  pose proof (inv_lock _ Hi) as Hl.
  destruct t; simpl in Hh; try discriminate; rewrite Hh in *; simpl in *;
    rewrite Hp in *; simpl in *.
  - split; [exact Hl|]. intros b q Hq. rewrite Hq in He. exact He.
  - split; [rewrite Hl; apply orb_true_r|]. intros b q Hq.
    rewrite Hq in He. simpl in He. rewrite andb_true_r in He. exact He.
Qed.

(** X1.  The lock is taken exactly when some handler stands inside
    [with lock:], and the two handlers never stand inside together. *)
Theorem lock_is_exclusive sched s :
  run sched initial = Some s ->
  (locked s = true <->
   exists t a p, handler t s = Some (Thread a p) /\ inside p = true)
  /\ (forall a1 p1 a2 p2,
        handler Handler1 s = Some (Thread a1 p1) ->
        handler Handler2 s = Some (Thread a2 p2) ->
        inside p1 && inside p2 = false).
Proof.
  intros Hrun.
  pose proof (run_invariant _ _ _ invariant_initial Hrun) as Hi.
  pose proof (inv_excl _ Hi) as He. pose proof (inv_lock _ Hi) as Hl.
  split; [split|].
  - intros L. rewrite L in Hl. symmetry in Hl. apply orb_true_iff in Hl.
    destruct Hl as [H|H]; [exists Handler1 | exists Handler2]; simpl;
      [destruct (handler1 s) as [[a p]|] | destruct (handler2 s) as [[a p]|]];
      try discriminate; eauto.
  - intros (t & a & p & Hh & Hp).
    exact (proj1 (handler_inside_locked _ _ _ _ Hi Hh Hp)).
  - intros a1 p1 a2 p2 H1 H2. simpl in H1, H2. rewrite H1, H2 in He.
    exact He.
Qed.

Lemma lock_is_exclusive_witness :
  (locked at_both = true <->
   exists t a p, handler t at_both = Some (Thread a p) /\ inside p = true)
  /\ (forall a1 p1 a2 p2,
        handler Handler1 at_both = Some (Thread a1 p1) ->
        handler Handler2 at_both = Some (Thread a2 p2) ->
        inside p1 && inside p2 = false).
Proof. exact (lock_is_exclusive until_both at_both eq_refl). Defined.

(** While [t] reads the reply to its GO, a step of another thread leaves
    [t], [turn], the accepted messages and every session's signals as they
    were. *)
Lemma pending_read_step s t a u r s' :
  invariant s -> handler t s = Some (Thread a AtRecv) -> u <> t ->
  step u r s = Some s' ->
  handler t s' = Some (Thread a AtRecv)
  /\ turn_of s' = turn_of s
  /\ locked s' = true
  /\ accepted_ids (history s') = accepted_ids (history s)
  /\ forall i, signals_to i (history s') = signals_to i (history s).
Proof.
  intros Hi Hh Hu Hstep.
  pose proof (handler_not_main _ _ _ Hh) as Hm.
  destruct (handler_inside_locked _ _ _ _ Hi Hh eq_refl) as [Hl Ho].
  destruct (tid_eq_dec u Main) as [->|Hum].
  - destruct (main_step _ _ _ Hi Hstep) as (Ht & Hlk & Ha & Hs & Hk).
    repeat split; auto; congruence.
  - destruct (handler_step _ _ _ _ Hi Hum Hstep)
      as (b & p & p' & Hp & Hp' & Hhc & [Een El _ Et Es Ef] & Hoth & _).
    rewrite (other_of_other _ _ Hm Hum Hu) in Hoth.
    assert (Eu : other t = u) by (destruct t, u; simpl; congruence).
    rewrite Eu in Ho. pose proof (Ho _ _ Hp) as Ip.
    assert (Ip' : inside p' = false).
    { destruct (inside p') eqn:E; [|reflexivity].
      unfold locked in Hl. rewrite (Een Ip eq_refl) in Hl. discriminate. }
    split; [congruence|].
    assert (Hturn : accepted_ids (out (globals_of s'))
                    = accepted_ids (out (globals_of s))
                    /\ turn (globals_of s') = turn (globals_of s)).
    { destruct Et as [Et|(-> & _)]; [exact Et | discriminate Ip]. }
    destruct Hturn as [Ha Ht].
    split; [exact Ht|].
    split; [unfold locked in *; rewrite El, Ip, Ip'; exact Hl|].
    split; [exact Ha|].
    intros i. destruct (Z.eq_dec i (client_id_of u)) as [->|Hne];
      [|apply Ef; exact Hne].
    destruct Es as [[Es _]|[(-> & _)|(-> & _)]];
      [exact Es | discriminate Ip | discriminate Ip].
Qed.

(** X2.  The read of a reply is made with the lock held.  While the handler
    of one session waits in it, whatever the other threads do, [turn], the
    accepted messages and the signals of both sessions stay as they are, and
    the other handler, once at the lock, cannot move. *)
Theorem pending_read_blocks_peer sched s t a sched' s' :
  run sched initial = Some s ->
  handler t s = Some (Thread a AtRecv) ->
  Forall (fun x => fst x <> t) sched' ->
  run sched' s = Some s' ->
  handler t s' = Some (Thread a AtRecv)
  /\ turn_of s' = turn_of s
  /\ accepted_ids (history s') = accepted_ids (history s)
  /\ (forall i, signals_to i (history s') = signals_to i (history s))
  /\ (forall r, at_pc (other t) AtLock s' -> step (other t) r s' = None).
Proof.
  intros Hrun Hh Hall Hrun'.
  pose proof (run_invariant _ _ _ invariant_initial Hrun) as Hi.
  assert (Keep : handler t s' = Some (Thread a AtRecv)
                 /\ turn_of s' = turn_of s
                 /\ accepted_ids (history s') = accepted_ids (history s)
                 /\ (forall i, signals_to i (history s')
                               = signals_to i (history s))
                 /\ invariant s').
  { clear Hrun. revert s Hi Hh Hrun'.
    induction Hall as [|[u r] rest Hu _ IH]; simpl; intros s Hi Hh Hrun'.
    - inversion Hrun'; subst. auto.
    - destruct (step u r s) as [s1|] eqn:E; [|discriminate].
      destruct (pending_read_step _ _ _ _ _ _ Hi Hh Hu E)
        as (H1 & H2 & _ & H3 & H4).
      destruct (IH s1 (invariant_step _ _ _ _ Hi E) H1 Hrun')
        as (K1 & K2 & K3 & K4 & K5).
      split; [exact K1|]. split; [congruence|]. split; [congruence|].
      split; [|exact K5]. intros i. rewrite K4. apply H4. }
  destruct Keep as (K1 & K2 & K3 & K4 & Hi').
  repeat split; auto.
  intros r (b & Hb).
  destruct (handler_inside_locked _ _ _ _ Hi' K1 eq_refl) as [Hl _].
  rewrite (step_handler _ r _ _ _ Hb). simpl.
  unfold locked in Hl. rewrite Hl. reflexivity.
Qed.

Lemma pending_read_blocks_peer_witness :
  handler Handler1 at_both = Some (Thread peer_address AtRecv)
  /\ turn_of at_both = turn_of at_recv
  /\ accepted_ids (history at_both) = accepted_ids (history at_recv)
  /\ (forall i, signals_to i (history at_both)
                = signals_to i (history at_recv))
  /\ (forall r, at_pc (other Handler1) AtLock at_both ->
                step (other Handler1) r at_both = None).
Proof.
  refine (pending_read_blocks_peer until_recv at_recv Handler1 peer_address
            [(Main, Returns peer_address)] at_both eq_refl eq_refl _ eq_refl).
  repeat constructor. discriminate.
Defined.

(** How a step that ends a handler inside the lock leaves the process. *)
Lemma ends_inside s t a p r pc' g' :
  invariant s ->
  handler t s = Some (Thread a p) ->
  handle_client (client_id_of t) a r p (globals_of s) = Some (pc', g') ->
  lock g' = false ->
  exists s',
    step t r s = Some s'
    /\ handler t s' = Some (Thread a pc')
    /\ globals_of s' = g'
    /\ main s' = main s
    /\ handler (other t) s' = handler (other t) s
    /\ goes_on t s'.
Proof.
  intros Hi Hh Hhc Hl.
  pose proof (handler_not_main _ _ _ Hh) as Hm.
  pose proof (step_handler t r s a p Hh) as Hstep. rewrite Hhc in Hstep.
  eexists. split; [exact Hstep|].
  pose proof (invariant_step _ _ _ _ Hi Hstep) as Hi'.
  destruct (handler_of_set t (Thread a pc') g' s Hm) as (H1 & H2 & H3 & H4).
  repeat split; try assumption;
    apply rest_goes_on; try assumption; unfold locked; rewrite H4; exact Hl.
Qed.

(** X3.  A socket call that raises anything but [ConnectionResetError] and
    [BrokenPipeError] ends the handler with the exception uncaught: no
    disconnect line is printed, [turn] keeps its value, the lock is released
    and the rest of the process goes on. *)
Theorem uncaught_error_ends_silently sched s t a p e :
  run sched initial = Some s ->
  handler t s = Some (Thread a p) ->
  calls p = true ->
  e <> ConnectionResetError ->
  e <> BrokenPipeError ->
  exists s',
    step t (Raises e) s = Some s'
    /\ handler t s' = Some (Thread a (Finished (Died e)))
    /\ history s' = history s
    /\ turn_of s' = turn_of s
    /\ locked s' = false
    /\ main s' = main s
    /\ handler (other t) s' = handler (other t) s
    /\ goes_on t s'.
Proof.
  intros Hrun Hh Hp H1 H2.
  pose proof (run_invariant _ _ _ invariant_initial Hrun) as Hi.
  assert (Hc : caught e = false) by (destruct e; simpl; congruence).
  assert (Hhc : handle_client (client_id_of t) a (Raises e) p (globals_of s)
                = Some (Finished (Died e), set_lock false (globals_of s))).
  { destruct p; try discriminate Hp; simpl; unfold unwind; rewrite Hc;
      reflexivity. }
  destruct (ends_inside _ _ _ _ _ _ _ Hi Hh Hhc eq_refl)
    as (s' & St & Hh' & Hg & Hm & Ho & Hgo).
  exists s'. unfold history, turn_of, locked. rewrite Hg. auto 10.
Qed.

Lemma uncaught_error_ends_silently_witness :
  exists s',
    step Handler1 (Raises OSError) at_recv = Some s'
    /\ handler Handler1 s'
       = Some (Thread peer_address (Finished (Died OSError)))
    /\ history s' = history at_recv
    /\ turn_of s' = turn_of at_recv
    /\ locked s' = false
    /\ main s' = main at_recv
    /\ handler (other Handler1) s' = handler (other Handler1) at_recv
    /\ goes_on Handler1 s'.
Proof.
  refine (uncaught_error_ends_silently until_recv at_recv Handler1
            peer_address AtRecv OSError eq_refl eq_refl eq_refl _ _);
    discriminate.
Defined.

(** X4.  A reply that is not well-formed UTF-8 makes [decode] raise; the
    handler ends with [UnicodeDecodeError] uncaught, nothing accepted or
    printed, [turn] unchanged and the lock released. *)
Theorem undecodable_reply_ends_handler sched s t a b :
  run sched initial = Some s ->
  handler t s = Some (Thread a AtRecv) ->
  utf8 b = false ->
  exists s',
    step t (Returns b) s = Some s'
    /\ handler t s' = Some (Thread a (Finished (Died UnicodeDecodeError)))
    /\ history s' = history s
    /\ turn_of s' = turn_of s
    /\ locked s' = false
    /\ goes_on t s'.
Proof.
  intros Hrun Hh Hb.
  pose proof (run_invariant _ _ _ invariant_initial Hrun) as Hi.
  assert (Hhc : handle_client (client_id_of t) a (Returns b) AtRecv
                  (globals_of s)
                = Some (Finished (Died UnicodeDecodeError),
                        set_lock false (globals_of s)))
    by (simpl; unfold decode; rewrite Hb; reflexivity).
  destruct (ends_inside _ _ _ _ _ _ _ Hi Hh Hhc eq_refl)
    as (s' & St & Hh' & Hg & Hm & Ho & Hgo).
  exists s'. unfold history, turn_of, locked. rewrite Hg. auto 10.
Qed.

Lemma undecodable_reply_ends_handler_witness :
  exists s',
    step Handler1 (Returns (String (ascii_of_nat 255) "")) at_recv = Some s'
    /\ handler Handler1 s'
       = Some (Thread peer_address (Finished (Died UnicodeDecodeError)))
    /\ history s' = history at_recv
    /\ turn_of s' = turn_of at_recv
    /\ locked s' = false
    /\ goes_on Handler1 s'.
Proof.
  exact (undecodable_reply_ends_handler until_recv at_recv Handler1
           peer_address (String (ascii_of_nat 255) "") eq_refl eq_refl
           eq_refl).
Defined.

Lemma split_none sep s : occurrences sep s = 0%nat -> split sep s = [s].
Proof.
  induction s as [|c r IH]; simpl; [reflexivity|].
  destruct (Ascii.eqb c sep); [discriminate|].
  intros H. rewrite (IH H). reflexivity.
Qed.

Lemma split_one sep s y :
  split sep s = [y] -> s = y /\ occurrences sep s = 0%nat.
Proof.
  intros H. assert (L : occurrences sep s = 0%nat).
  { pose proof (split_length sep s) as E. rewrite H in E. simpl in E. lia. }
  rewrite (split_none _ _ L) in H. inversion H. split; [reflexivity|].
  congruence.
Qed.

(** The two fields of a split are the text before and after its only
    separator. *)
Lemma split_two sep s : forall x y,
  split sep s = [x; y] ->
  s = x ++ String sep y
  /\ occurrences sep x = 0%nat /\ occurrences sep y = 0%nat.
Proof.
  induction s as [|c r IH]; simpl; intros x y H; [discriminate|].
  destruct (Ascii.eqb_spec c sep) as [->|Hc].
  - inversion H; subst. destruct (split_one _ _ _ H2) as [-> Hy]. auto.
  - destruct (split sep r) as [|h t] eqn:E; [discriminate|].
    inversion H; subst. destruct (IH _ _ eq_refl) as (-> & Hx & Hy).
    simpl. destruct (Ascii.eqb_spec c sep); [contradiction|]. auto.
Qed.

Lemma occurrences_app sep a b :
  occurrences sep (a ++ b) = (occurrences sep a + occurrences sep b)%nat.
Proof.
  induction a as [|c r IH]; simpl; [reflexivity|].
  destruct (Ascii.eqb c sep); simpl; rewrite IH; reflexivity.
Qed.

Lemma other_turn t :
  t <> Main ->
  (if client_id_of t =? 1 then 2 else 1) = client_id_of (other t).
Proof. destruct t; simpl; congruence. Qed.

(** X5.  A reply that decodes to a text that is not empty is accepted
    exactly when it holds one colon.  The name and the number logged are
    then the text before and after the colon, either of which may be empty
    or anything else, the line printed is made of them, [turn] goes to the
    other session and the lock is released.  With no colon or several the
    handler ends on [ValueError] and nothing is logged. *)
Theorem reply_accepted_iff_one_colon sched s t a b data :
  run sched initial = Some s ->
  handler t s = Some (Thread a AtRecv) ->
  decode b = Some data ->
  data <> "" ->
  exists s',
    step t (Returns b) s = Some s'
    /\ ((occurrences colon data = 1%nat
         /\ exists client_name number,
              data = client_name ++ ":" ++ number
              /\ occurrences colon client_name = 0%nat
              /\ occurrences colon number = 0%nat
              /\ history s'
                 = Printed (client_name ++ " sent: " ++ number)
                   :: Accepted (client_id_of t) client_name number
                   :: history s
              /\ handler t s' = Some (Thread a AtSleep)
              /\ turn_of s' = client_id_of (other t)
              /\ locked s' = false)
        \/ (occurrences colon data <> 1%nat
            /\ handler t s' = Some (Thread a (Finished (Died ValueError)))
            /\ history s' = history s
            /\ turn_of s' = turn_of s
            /\ locked s' = false)).
Proof.
  intros Hrun Hh Hd Hne.
  pose proof (run_invariant _ _ _ invariant_initial Hrun) as Hi.
  pose proof (handler_not_main _ _ _ Hh) as Hm.
  pose proof (split_length colon data) as Hlen.
  assert (Hhc : handle_client (client_id_of t) a (Returns b) AtRecv
                  (globals_of s)
                = Some (on_data (client_id_of t) a data (globals_of s)))
    by (simpl; rewrite Hd; reflexivity).
  unfold on_data in Hhc.
  destruct (String.eqb_spec data "") as [E|_]; [contradiction|].
  destruct (split colon data) as [|f1 [|f2 [|f3 fs]]] eqn:Es;
    simpl in Hlen; try discriminate Hlen;
    cbv zeta in Hhc; unfold unwind in Hhc; simpl caught in Hhc;
    cbv iota in Hhc;
    (destruct (ends_inside _ _ _ _ _ _ _ Hi Hh Hhc eq_refl)
       as (s' & St & Hh' & Hg & _ & _ & _));
    exists s'; (split; [exact St|]); unfold history, turn_of, locked;
    rewrite Hg; simpl.
  - right. repeat split; auto. lia.
  - left. split; [lia|]. exists f1, f2.
    destruct (split_two _ _ _ _ Es) as (E & H1 & H2).
    repeat split; auto. apply other_turn. exact Hm.
  - right. repeat split; auto. lia.
Qed.

Lemma reply_accepted_iff_one_colon_witness :
  exists s',
    step Handler1 (Returns ":") at_recv = Some s'
    /\ ((occurrences colon ":" = 1%nat
         /\ exists client_name number,
              ":"%string = client_name ++ ":" ++ number
              /\ occurrences colon client_name = 0%nat
              /\ occurrences colon number = 0%nat
              /\ history s'
                 = Printed (client_name ++ " sent: " ++ number)
                   :: Accepted (client_id_of Handler1) client_name number
                   :: history at_recv
              /\ handler Handler1 s' = Some (Thread peer_address AtSleep)
              /\ turn_of s' = client_id_of (other Handler1)
              /\ locked s' = false)
        \/ (occurrences colon ":" <> 1%nat
            /\ handler Handler1 s'
               = Some (Thread peer_address (Finished (Died ValueError)))
            /\ history s' = history at_recv
            /\ turn_of s' = turn_of at_recv
            /\ locked s' = false)).
Proof.
  refine (reply_accepted_iff_one_colon until_recv at_recv Handler1
            peer_address ":" ":" eq_refl eq_refl eq_refl _).
  discriminate.
Defined.

(** X6.  When [bind] or [listen] raises, [server()] ends there: no thread
    is ever started and nothing else ever happens in the process. *)
Theorem bind_failure_is_fatal e sched s :
  run ((Main, Raises e) :: sched) initial = Some s ->
  sched = []
  /\ main s = Exited (Some e)
  /\ handler Handler1 s = None /\ handler Handler2 s = None
  /\ history s = [].
Proof.
  simpl. destruct sched as [|[u r] rest]; simpl; intros H.
  - inversion H; subst. auto.
  - destruct u; discriminate H.
Qed.

Lemma bind_failure_is_fatal_witness :
  @nil (tid * io) = []
  /\ main (State (Globals 1 false []) (Exited (Some OSError)) None None)
     = Exited (Some OSError)
  /\ handler Handler1
       (State (Globals 1 false []) (Exited (Some OSError)) None None) = None
  /\ handler Handler2
       (State (Globals 1 false []) (Exited (Some OSError)) None None) = None
  /\ history (State (Globals 1 false []) (Exited (Some OSError)) None None)
     = [].
Proof. exact (bind_failure_is_fatal OSError [] _ eq_refl). Defined.

(** Every signal is GO or WAIT. *)
Lemma signals_step s u r s' i :
  invariant s -> step u r s = Some s' ->
  signals_to i (history s') = signals_to i (history s)
  \/ signals_to i (history s') = "GO" :: signals_to i (history s)
  \/ signals_to i (history s') = "WAIT" :: signals_to i (history s).
Proof.
  intros Hi Hstep. destruct (tid_eq_dec u Main) as [->|Hu].
  - left. apply (main_step _ _ _ Hi Hstep).
  - destruct (handler_step _ _ _ _ Hi Hu Hstep)
      as (a & p & p' & _ & _ & _ & [_ _ _ _ Es Ef] & _ & _).
    destruct (Z.eq_dec i (client_id_of u)) as [->|Hne];
      [|left; apply Ef; exact Hne].
    destruct Es as [[Es _]|[(_ & _ & Es)|(_ & _ & Es)]]; auto.
Qed.

Lemma balance_local i a r p g p' g' :
  handle_client i a r p g = Some (p', g') ->
  balance_at (Some p) (go_count i (out g)) (accepted_from i (out g)) ->
  balance_at (Some p') (go_count i (out g')) (accepted_from i (out g')).
Proof.
  intros H Hb. destruct g as [tn lk tr].
  unfold handle_client, on_data, unwind in H; simpl in H.
  break_match H; inversion H; subst; clear H;
    unfold go_count, accepted_from in *; simpl in *;
    rewrite ?Z.eqb_refl; simpl;
    try (destruct (Z.eq_dec i i); [|congruence]);
    try lia.
Qed.

Lemma go_balance_step s t u r s' :
  invariant s -> t <> Main -> go_balance t s -> step u r s = Some s' ->
  go_balance t s'.
Proof.
  intros Hi Ht Hb Hstep. unfold go_balance in *.
  destruct (tid_eq_dec u Main) as [->|Hu].
  - destruct (main_step _ _ _ Hi Hstep) as (_ & _ & Ha & Hs & Hk).
    unfold go_count, accepted_from, history in *. rewrite Ha, Hs.
    destruct (handler t s) as [h|] eqn:Hh.
    + rewrite (Hk _ _ Hh). exact Hb.
    + destruct s as [g m h1 h2]. unfold step, server in Hstep.
      simpl in Hstep.
      destruct m, r; inversion Hstep; subst; clear Hstep;
        destruct t; simpl in *; try rewrite Hh; auto; congruence.
  - destruct (handler_step _ _ _ _ Hi Hu Hstep)
      as (a & p & p' & Hp & Hp' & Hhc & [_ _ _ Et _ Ef] & Hoth & _).
    destruct (tid_eq_dec u t) as [->|Hut].
    + rewrite Hp in Hb. rewrite Hp'. simpl in *.
      exact (balance_local _ _ _ _ _ _ _ Hhc Hb).
    + rewrite <- (other_of_other _ _ Ht Hu Hut), Hoth.
      rewrite (other_of_other _ _ Ht Hu Hut).
      assert (Hid : client_id_of u <> client_id_of t)
        by (destruct t, u; simpl; congruence).
      unfold go_count, accepted_from in *.
      rewrite (Ef _ (not_eq_sym Hid)).
      destruct Et as [[Ea _]|(_ & _ & _ & _ & Ea)]; rewrite Ea;
        [exact Hb|].
      simpl. destruct (Z.eq_dec (client_id_of u) (client_id_of t));
        [contradiction|exact Hb].
Qed.

(** X7.  The signals put on a session are GO and WAIT only, and a GO is
    answered before the next one is sent: the number of GO sent to a
    session is the number of messages accepted from it, plus one exactly
    while its handler waits for the reply. *)
Theorem go_answered_before_next sched s t :
  run sched initial = Some s ->
  t <> Main ->
  go_balance t s
  /\ (accepted_from (client_id_of t) (history s)
      <= go_count (client_id_of t) (history s)
      <= S (accepted_from (client_id_of t) (history s)))%nat
  /\ Forall (fun signal => signal = "GO" \/ signal = "WAIT")
            (signals_to (client_id_of t) (history s)).
Proof.
  intros Hrun Ht.
  assert (H : forall s0, invariant s0 -> go_balance t s0 ->
            Forall (fun signal => signal = "GO" \/ signal = "WAIT")
                   (signals_to (client_id_of t) (history s0)) ->
            run sched s0 = Some s ->
            go_balance t s
            /\ Forall (fun signal => signal = "GO" \/ signal = "WAIT")
                      (signals_to (client_id_of t) (history s))).
  { clear Hrun. induction sched as [|[u r] rest IH]; simpl;
      intros s0 Hi Hb Hv Hrun; [inversion Hrun; subst; auto|].
    destruct (step u r s0) as [s1|] eqn:E; [|discriminate].
    assert (Hv1 : Forall (fun signal => signal = "GO" \/ signal = "WAIT")
                    (signals_to (client_id_of t) (history s1)))
      by (destruct (signals_step _ _ _ _ (client_id_of t) Hi E)
            as [E1|[E1|E1]]; rewrite E1; auto).
    exact (IH s1 (invariant_step _ _ _ _ Hi E)
             (go_balance_step _ _ _ _ _ Hi Ht Hb E) Hv1 Hrun). }
  assert (B0 : go_balance t initial)
    by (destruct t; simpl; try reflexivity; congruence).
  assert (V0 : Forall (fun signal => signal = "GO" \/ signal = "WAIT")
                 (signals_to (client_id_of t) (history initial)))
    by constructor.
  destruct (H initial invariant_initial B0 V0 Hrun) as [Hb Hv].
  split; [exact Hb|]. split; [|exact Hv].
  unfold go_balance in Hb. unfold history.
  destruct (handler t s) as [[a p]|]; [destruct p|]; simpl in Hb; lia.
Qed.

Lemma go_answered_before_next_witness :
  go_balance Handler1 at_recv
  /\ (accepted_from (client_id_of Handler1) (history at_recv)
      <= go_count (client_id_of Handler1) (history at_recv)
      <= S (accepted_from (client_id_of Handler1) (history at_recv)))%nat
  /\ Forall (fun signal => signal = "GO" \/ signal = "WAIT")
            (signals_to (client_id_of Handler1) (history at_recv)).
Proof.
  refine (go_answered_before_next until_recv at_recv Handler1 eq_refl _).
  discriminate.
Defined.

(** One step after a session has ended: either nothing is accepted and
    [turn] stays, or the other session's message is accepted and [turn]
    goes to the ended one. *)
Lemma ended_step s t u r s' :
  invariant s -> ended t s -> step u r s = Some s' ->
  ended t s'
  /\ ((accepted_count s' = accepted_count s /\ turn_of s' = turn_of s)
      \/ (accepted_count s' = S (accepted_count s)
          /\ turn_of s <> client_id_of t
          /\ turn_of s' = client_id_of t)).
Proof.
  intros Hi (a & x & Ha) Hstep.
  pose proof (handler_not_main _ _ _ Ha) as Hm.
  unfold accepted_count, history.
  destruct (tid_eq_dec u Main) as [->|Hu].
  - destruct (main_step _ _ _ Hi Hstep) as (Ht & _ & Hacc & _ & Hk).
    split; [exists a, x; apply Hk; exact Ha|].
    left. unfold history in Hacc. rewrite Hacc. auto.
  - destruct (tid_eq_dec u t) as [->|Hut].
    { rewrite (step_handler _ _ _ _ _ Ha) in Hstep. discriminate. }
    destruct (handler_step _ _ _ _ Hi Hu Hstep)
      as (b & p & p' & _ & _ & _ & [_ _ _ Et _ _] & Ho & _).
    rewrite (other_of_other _ _ Hm Hu Hut) in Ho.
    split; [exists a, x; rewrite Ho; exact Ha|].
    destruct Et as [[Ea Et]|(_ & _ & Etg & Et & Ea)]; rewrite Ea.
    + left. auto.
    + right. unfold turn_of. rewrite Et, Etg. simpl.
      destruct t, u; simpl; repeat split; congruence.
Qed.

(** X8.  Once a session has ended, the other one gets at most one more
    message accepted: none if [turn] named the ended session, and after
    one [turn] names it. *)
Theorem one_more_after_end sched s t sched' s' :
  run sched initial = Some s ->
  ended t s ->
  run sched' s = Some s' ->
  (accepted_count s' <= S (accepted_count s))%nat
  /\ (turn_of s = client_id_of t -> accepted_count s' = accepted_count s)
  /\ (accepted_count s' = S (accepted_count s) ->
      turn_of s' = client_id_of t).
Proof.
  intros Hrun He Hrun'.
  pose proof (run_invariant _ _ _ invariant_initial Hrun) as Hi.
  clear Hrun. revert s Hi He Hrun'.
  induction sched' as [|[u r] rest IH]; simpl; intros s Hi He Hrun'.
  - inversion Hrun'; subst. repeat split; auto; lia.
  - destruct (step u r s) as [s1|] eqn:E; [|discriminate].
    destruct (ended_step _ _ _ _ _ Hi He E) as (He1 & Hcase).
    pose proof (invariant_step _ _ _ _ Hi E) as Hi1.
    destruct (IH s1 Hi1 He1 Hrun') as (B1 & B2 & B3).
    destruct Hcase as [[Ha Ht]|(Ha & Hn & Ht)].
    + rewrite Ha, Ht in *. auto.
    + specialize (B2 Ht). rewrite B2, Ha in *.
      repeat split; auto; try congruence.
      intros _.
      destruct (stuck_run t rest s1 s' Hi1 He1 Ht Hrun') as (_ & T & _).
      exact T.
Qed.

Lemma one_more_after_end_witness :
  (accepted_count at_survivor <= S (accepted_count at_return))%nat
  /\ (turn_of at_return = client_id_of Handler1 ->
      accepted_count at_survivor = accepted_count at_return)
  /\ (accepted_count at_survivor = S (accepted_count at_return) ->
      turn_of at_survivor = client_id_of Handler1).
Proof.
  refine (one_more_after_end until_return at_return Handler1 survivor_polls
            at_survivor eq_refl _ eq_refl).
  exists peer_address, Returned. reflexivity.
Defined.

End ServerExtras.

(** * Further properties of [client.py] *)
Module ClientProofs.
Import Py Client.

#[local] Arguments str : simpl never.
#[local] Arguments String.append : simpl never.

Lemma payloads_S name start k :
  payloads name start (S k)
  = (payloads name start k
     ++ [(name ++ ":" ++ str (start + 2 * Z.of_nat k))%string])%list.
Proof. unfold payloads. rewrite seq_S, map_app. reflexivity. Qed.

Lemma lines_S name start k :
  lines name start (S k)
  = (lines name start k
     ++ [(name ++ " sent: " ++ str (start + 2 * Z.of_nat k))%string])%list.
Proof. unfold lines. rewrite seq_S, map_app. reflexivity. Qed.

Lemma invariant_start name first : invariant name first (start name first).
Proof.
  constructor; simpl; try reflexivity; try lia. discriminate.
Qed.

(** One step keeps the invariant, and builds a payload only on a read that
    returned GO. *)
Lemma client_step name start r s s' :
  invariant name start s ->
  client r s = Some s' ->
  invariant name start s'
  /\ (length (sent s') + pending s'
      <= length (sent s) + pending s + (if is_go r then 1 else 0))%nat.
Proof.
  intros [Hn Hc Hs Hp Hm] H. unfold client in H. unfold pending.
  destruct (pc s) eqn:P.
  - destruct r; inversion H; subst; clear H; simpl;
      (split; [constructor; simpl; auto; discriminate | lia]).
  - destruct r as [b|e].
    + unfold decode in H. destruct (utf8 b).
      * destruct (String.eqb_spec b "GO") as [->|Hgo].
        -- inversion H; subst; clear H; simpl.
           split; [|lia]. constructor; simpl; auto.
           intros m E. inversion E. congruence.
        -- simpl. destruct (String.eqb_spec b "GO"); [contradiction|].
           destruct (String.eqb b "WAIT"); inversion H; subst; clear H;
             simpl; rewrite ?P;
             (split; [constructor; simpl; auto; try discriminate;
                      rewrite P; discriminate | lia]).
      * inversion H; subst; clear H; simpl.
        split; [constructor; simpl; auto; discriminate | lia].
    + inversion H; subst; clear H; simpl.
      split; [constructor; simpl; auto; discriminate | lia].
  - specialize (Hm _ eq_refl).
    destruct r; inversion H; subst; clear H; simpl;
      [|split; [constructor; simpl; auto; discriminate | lia]].
    split; [|lia]. constructor; simpl; auto; try discriminate.
    + rewrite Hc. lia.
    + rewrite Hs, payloads_S, Hc. reflexivity.
    + rewrite Hp, lines_S, Hc. reflexivity.
  - inversion H; subst; clear H; simpl.
    split; [constructor; simpl; auto; discriminate | lia].
  - inversion H; subst; clear H; simpl.
    split; [constructor; simpl; auto; discriminate | lia].
  - discriminate.
Qed.

(** X9.  Whatever the server sends and however the socket calls end, a
    thread started as [client(name, start)] has transmitted the payloads
    name:start, name:start+2, ... in that order and printed a line for
    each, its counter is [start] plus twice their number, and it has built
    no more payloads than it has read GO signals. *)
Theorem client_counts_by_two name start_number rs s :
  run rs (start name start_number) = Some s ->
  current_number s = start_number + 2 * Z.of_nat (length (sent s))
  /\ rev (sent s) = payloads name start_number (length (sent s))
  /\ rev (printed s) = lines name start_number (length (sent s))
  /\ (length (sent s) + pending s <= go_reads rs)%nat.
Proof.
  intros Hrun.
  assert (H : forall s0, invariant name start_number s0 ->
            run rs s0 = Some s ->
            invariant name start_number s
            /\ (length (sent s) + pending s
                <= length (sent s0) + pending s0 + go_reads rs)%nat).
  { clear Hrun. induction rs as [|r rest IH]; simpl; intros s0 Hi Hrun;
      [inversion Hrun; subst; split; [exact Hi | unfold go_reads; simpl; lia]|].
    destruct (client r s0) as [s1|] eqn:E; [|discriminate].
    destruct (client_step _ _ _ _ _ Hi E) as [Hi1 Hle].
    destruct (IH s1 Hi1 Hrun) as [Hi' Hle'].
    split; [exact Hi'|]. unfold go_reads in *. simpl.
    destruct (is_go r); simpl; lia. }
  destruct (H _ (invariant_start name start_number) Hrun)
    as [[Hn Hc Hs Hp Hm] Hle].
  simpl in Hle. auto.
Qed.

Lemma client_counts_by_two_witness :
  current_number (State "Client2" 6 AtSleepSecond
                        ["Client2:4"; "Client2:2"]
                        ["Client2 sent: 4"; "Client2 sent: 2"])
  = 2 + 2 * Z.of_nat (length ["Client2:4"; "Client2:2"])
  /\ rev ["Client2:4"; "Client2:2"]
     = payloads "Client2" 2 (length ["Client2:4"; "Client2:2"])
  /\ rev ["Client2 sent: 4"; "Client2 sent: 2"]
     = lines "Client2" 2 (length ["Client2:4"; "Client2:2"])
  /\ (length ["Client2:4"; "Client2:2"]
      + pending (State "Client2" 6 AtSleepSecond
                       ["Client2:4"; "Client2:2"]
                       ["Client2 sent: 4"; "Client2 sent: 2"])
      <= go_reads [Returns ""; Returns "WAIT"; Returns ""; Returns "GO";
                   Returns ""; Returns ""; Returns "WAITWAIT";
                   Returns "GO"; Returns ""])%nat.
Proof.
  exact (client_counts_by_two "Client2" 2
           [Returns ""; Returns "WAIT"; Returns ""; Returns "GO";
            Returns ""; Returns ""; Returns "WAITWAIT"; Returns "GO";
            Returns ""] _ eq_refl).
Defined.

(** X10.  The loop of [client] has no exit: as long as its socket calls
    succeed and return well-formed UTF-8, the thread takes every step asked
    of it and has not ended. *)
Theorem client_loops_forever rs s :
  Forall (fun r => exists b, r = Returns b /\ utf8 b = true) rs ->
  (forall e, pc s <> Crashed e) ->
  exists s', run rs s = Some s' /\ forall e, pc s' <> Crashed e.
Proof.
  intros Hall. revert s.
  induction Hall as [|r rest (b & -> & Hb) _ IH]; simpl; intros s Hs.
  - exists s. auto.
  - assert (Hstep : exists s1, client (Returns b) s = Some s1
                               /\ forall e, pc s1 <> Crashed e).
    { unfold client, decode. rewrite Hb.
      destruct (pc s) eqn:P; try (eexists; split; [reflexivity|];
                                   simpl; intros; discriminate).
      - destruct (String.eqb b "GO"); [|destruct (String.eqb b "WAIT")];
          eexists; (split; [reflexivity|]); simpl; intros;
          rewrite ?P; discriminate.
      - exfalso. exact (Hs e eq_refl). }
    destruct Hstep as (s1 & E & Hs1). rewrite E. apply IH. exact Hs1.
Qed.

Lemma client_loops_forever_witness :
  exists s',
    run [Returns ""; Returns "WAIT"; Returns ""; Returns "WAITGO";
         Returns "GO"; Returns ""; Returns ""] (start "Client1" 1) = Some s'
    /\ forall e, pc s' <> Crashed e.
Proof.
  refine (client_loops_forever
            [Returns ""; Returns "WAIT"; Returns ""; Returns "WAITGO";
             Returns "GO"; Returns ""; Returns ""] (start "Client1" 1) _ _).
  - repeat constructor; eexists; split; reflexivity.
  - discriminate.
Defined.

End ClientProofs.

(** * Further properties of the two programs together *)
Module SystemExtras.
Import Py System SystemProofs.

#[local] Arguments str : simpl never.
#[local] Arguments String.append : simpl never.
#[local] Arguments expected_nth : simpl never.
#[local] Arguments expected : simpl never.

Lemma link_up_short n h l : link_ok n h l -> (length (up l) <= 1)%nat.
Proof.
  destruct h as [[a p]|]; simpl.
  - destruct p; try tauto;
      try (intros (_ & U & _); rewrite U; simpl; lia).
    intros [(ws & _ & _ & U & _)|[(_ & U & _)|(_ & _ & m & _ & U)]];
      rewrite U; simpl; lia.
  - intros (_ & U & _). rewrite U. simpl. lia.
Qed.

Lemma link_alive n h l : link_ok n h l -> gone l = false /\ closed h = false.
Proof.
  intros Hl. split; [|exact (link_closed _ _ _ Hl)].
  unfold gone. destruct h as [[a p]|]; simpl in Hl.
  - destruct p; try tauto;
      try (destruct Hl as (_ & _ & I);
           destruct (Client.pc (peer l)); simpl in I; congruence).
    destruct Hl as [(ws & _ & _ & _ & I)|[(_ & _ & P)|(_ & I & _)]];
      try (rewrite P; reflexivity);
      destruct (Client.pc (peer l)); simpl in I; congruence.
  - destruct Hl as (_ & _ & [P|P]); rewrite P; reflexivity.
Qed.

Lemma recv_excludes s a k :
  invariant s ->
  Server.handler (tid_of k) (server s)
  = Some (Server.Thread a Server.AtRecv) ->
  up (link_of (flip k) s) = [].
Proof.
  intros Hi Hh. pose proof (Server.inv_excl _ (inv_server _ Hi)) as He.
  pose proof (invariant_link (flip k) s Hi) as Hl.
  refine (link_ok_up _ _ _ _ Hl). intros b Hb.
  destruct k; simpl in *; rewrite Hh, Hb in He; discriminate.
Qed.

Lemma in_flight s :
  invariant s ->
  (length (up (link1 s)) + length (up (link2 s)) <= 1)%nat.
Proof.
  intros Hi.
  pose proof (inv_link1 _ Hi) as H1. pose proof (inv_link2 _ Hi) as H2.
  pose proof (link_up_short _ _ _ H1) as S1.
  pose proof (link_up_short _ _ _ H2) as S2.
  destruct (up (link1 s)) as [|m1 r1] eqn:U1; simpl in *; [lia|].
  destruct (up (link2 s)) as [|m2 r2] eqn:U2; simpl in *; [lia|].
  exfalso.
  assert (R1 : exists a, Server.handler1 (server s)
                         = Some (Server.Thread a Server.AtRecv)).
  { destruct (Server.handler1 (server s)) as [[a p]|]; simpl in H1.
    - destruct p; try tauto;
        try (destruct H1 as (_ & U & _); congruence). eauto.
    - destruct H1 as (_ & U & _). congruence. }
  destruct R1 as [a Ha].
  pose proof (recv_excludes s a First Hi Ha) as E. simpl in E. congruence.
Qed.





(** What is logged for an accepted message, put back together, is the
    reply as it was received. *)
Lemma payload_local i a r p g p' g' :
  Server.handle_client i a r p g = Some (p', g') ->
  (Server.accepted_payloads (Server.out g')
   = Server.accepted_payloads (Server.out g)
   /\ Server.accepted_ids (Server.out g')
      = Server.accepted_ids (Server.out g))
  \/ (p = Server.AtRecv
      /\ exists b, r = Returns b
           /\ Server.accepted_payloads (Server.out g')
              = b :: Server.accepted_payloads (Server.out g)
           /\ Server.accepted_ids (Server.out g')
              = i :: Server.accepted_ids (Server.out g)).
Proof.
  intros H. destruct g as [tn lk tr].
  unfold Server.handle_client, Server.on_data, Server.unwind, decode in H;
    simpl in H.
  ServerProofs.break_match H; inversion H; subst; clear H; simpl; auto.
  all: right; split; [reflexivity|]; eexists; split; [reflexivity|];
    split; [|reflexivity]; f_equal;
    match goal with
    | E : split colon _ = [_; _] |- _ =>
        destruct (ServerExtras.split_two _ _ _ _ E) as (-> & _ & _)
    end;
    reflexivity.
Qed.

Lemma participate_server k s s' :
  participate k s = Some s' -> server s' = server s.
Proof.
  unfold participate. cbv zeta. intros H.
  assert (M : forall r d u w,
            match Client.client r (peer (link_of k s)) with
            | Some c =>
                Some (set_link k (Link c (address (link_of k s)) d u)
                        (State (server s) (link1 s) (link2 s) w))
            | None => None
            end = Some s' -> server s' = server s).
  { intros r d u w E.
    destruct (Client.client r (peer (link_of k s))) as [c|]; [|discriminate].
    inversion E. destruct k; reflexivity. }
  destruct (Client.pc (peer (link_of k s)));
    try exact (M _ _ _ _ H).
  - destruct (_ && _); [exact (M _ _ _ _ H) | discriminate].
  - destruct (down (link_of k s)); [|exact (M _ _ _ _ H)].
    destruct (closed _); [exact (M _ _ _ _ H) | discriminate].
Qed.

Lemma mirror_serve k s s' :
  invariant s ->
  Server.accepted_payloads (Server.history (server s))
  = rev (expected (Server.accepted_count (server s))) ->
  serve k s = Some s' ->
  Server.accepted_payloads (Server.history (server s'))
  = rev (expected (Server.accepted_count (server s'))).
Proof.
  intros Hi Hm Hstep. unfold Server.accepted_count, Server.history in *.
  pose proof (invariant_link k s Hi) as Hl.
  pose proof (inv_count _ Hi) as Hc.
  unfold serve in Hstep.
  destruct (Server.handler (tid_of k) (server s)) as [[a p]|] eqn:Hh;
    [|discriminate].
  cbv zeta in Hstep. simpl Server.pc in Hstep.
  destruct (incoming p (link_of k s)) as [[r rest]|] eqn:Ea; [|discriminate].
  rewrite (ServerProofs.step_handler _ _ _ _ _ Hh) in Hstep.
  destruct (Server.handle_client (Server.client_id_of (tid_of k)) a r p
              (Server.globals_of (server s))) as [[p' g']|] eqn:Hhc;
    [|discriminate].
  destruct (ServerProofs.handler_of_set (tid_of k) (Server.Thread a p') g'
              (server s) (tid_of_not_main k)) as (_ & _ & _ & Hg).
  assert (Hsrv : Server.globals_of (server s') = g').
  { inversion Hstep. destruct (set_link_facts k
      (Link (peer (link_of k s)) (address (link_of k s))
            (down (link_of k s) ++ signal_of p) rest)
      (State (Server.set_handler (tid_of k) (Server.Thread a p') g'
                (server s)) (link1 s) (link2 s) (wire s)))
      as (_ & _ & S & _).
    rewrite S. exact Hg. }
  rewrite Hsrv.
  destruct (payload_local _ _ _ _ _ _ _ Hhc)
    as [[-> ->]|(-> & b & -> & -> & ->)]; [exact Hm|].
  simpl in Hl.
  assert (Hb : b = expected_nth
                     (length (Server.accepted_ids
                                (Server.out (Server.globals_of (server s)))))).
  { destruct Hl as [(ws & _ & _ & U & I)|[(_ & U & P)|(_ & _ & m & N & U)]];
      unfold incoming in Ea; rewrite U in Ea.
    - rewrite (idle_not_gone _ I) in Ea. discriminate.
    - unfold gone in Ea. rewrite P in Ea. discriminate.
    - inversion Ea; subst. f_equal.
      pose proof (recv_excludes s a k Hi Hh) as Uo.
      unfold Server.accepted_count, Server.history in Hc.
      destruct k; simpl in *; rewrite U, Uo in Hc; simpl in Hc; lia. }
  simpl length. rewrite expected_S, Hm, Hb. reflexivity.
Qed.

Lemma mirror_step t s s' :
  invariant s ->
  Server.accepted_payloads (Server.history (server s))
  = rev (expected (Server.accepted_count (server s))) ->
  step t s = Some s' ->
  Server.accepted_payloads (Server.history (server s'))
  = rev (expected (Server.accepted_count (server s'))).
Proof.
  intros Hi Hm Hstep.
  destruct t as [[| |]|k]; simpl in Hstep;
    try exact (mirror_serve _ _ _ Hi Hm Hstep).
  - unfold Server.accepted_count, Server.history in *.
    unfold accept in Hstep.
    assert (G : forall r,
              match Server.step Server.Main r (server s) with
              | Some srv => Some (State srv (link1 s) (link2 s) (wire s))
              | None => None
              end = Some s' ->
              Server.accepted_payloads
                (Server.out (Server.globals_of (server s')))
              = Server.accepted_payloads
                  (Server.out (Server.globals_of (server s)))
              /\ Server.accepted_ids
                   (Server.out (Server.globals_of (server s')))
                 = Server.accepted_ids
                     (Server.out (Server.globals_of (server s)))).
    { intros r E. unfold Server.step, Server.server in E.
      destruct (Server.main (server s)), r; inversion E; subst; simpl;
        auto. }
    destruct (Server.main (server s));
      try (destruct (connected _); [|discriminate]);
      try discriminate;
      destruct (G _ Hstep) as [-> ->]; exact Hm.
  - rewrite (participate_server _ _ _ Hstep). exact Hm.
Qed.

Lemma firstn_of_seq a : forall first n,
  (a <= n)%nat -> firstn a (seq first n) = seq first a.
Proof.
  induction a as [|a IH]; intros first n H; [reflexivity|].
  destruct n as [|n]; [lia|]. simpl. rewrite IH by lia. reflexivity.
Qed.

Lemma firstn_expected a n :
  (a <= n)%nat -> firstn a (expected n) = expected a.
Proof.
  intros H. unfold expected. rewrite firstn_map, firstn_of_seq by exact H.
  reflexivity.
Qed.







End SystemExtras.
